(** * The FUSE adapter of the pachyderm file system (package [fuse])

    A shallow embedding of [filesystem.go]: the node model, the mount
    configuration, the inode table, the directory operations and the
    streaming write handle, with the data service kept abstract.

    Conventions.
    - Go [string] is a byte sequence: [string] (a list of 8-bit [ascii]).
    - Go [int], [int64] are [Z] with the two's-complement wrap written out
      ([int] is 64 bits wide on the platforms the mount runs on);
      [uint64] is [Z] modulo [2^64].
    - A Go run-time panic (index or slice out of range, nil dereference)
      is the outcome [Panic].
    - [protolion.Debug] calls in the deferred functions only log and are
      left out. *)

From Stdlib Require Import ZArith Lia Ascii.
From stdpp Require Import base option list strings gmap sorting.

Local Open Scope string_scope.
Local Open Scope Z_scope.

(** ** Machine integers *)

Definition uint64 (z : Z) : Z := z mod 2 ^ 64.
Definition int64 (z : Z) : Z := (z + 2 ^ 63) mod 2 ^ 64 - 2 ^ 63.
Definition int (z : Z) : Z := int64 z.

Definition in_int64 (z : Z) : Prop := - 2 ^ 63 <= z < 2 ^ 63.

(** ** Go string primitives used by the package *)

(** [len(s)] as a Go [int]. *)
Definition len (s : string) : Z := Z.of_nat (String.length s).

(** [strings.HasPrefix]:
    [len(s) >= len(prefix) && s[0:len(prefix)] == prefix]. *)
Definition HasPrefix (s prefix : string) : bool :=
  (String.length prefix <=? String.length s)%nat
  && String.eqb (String.substring 0 (String.length prefix) s) prefix.

(** [strings.TrimPrefix]: [s[len(prefix):]] when [prefix] is a prefix of
    [s], otherwise [s]. *)
Definition TrimPrefix (s prefix : string) : string :=
  if HasPrefix s prefix
  then String.substring (String.length prefix)
         (String.length s - String.length prefix) s
  else s.

(** ** [client/pfs]: the protocol types the adapter touches *)

Record Repo := { Repo_Name : string }.
Record Commit := { Commit_Repo : Repo; Commit_ID : string }.
Record File := { File_Commit : Commit; File_Path : string }.

Record Shard := {
  FileNumber : Z; FileModulus : Z; BlockNumber : Z; BlockModulus : Z }.

Record Timestamp := { Seconds : Z; Nanos : Z }.

Inductive CommitType :=
| COMMIT_TYPE_NONE | COMMIT_TYPE_READ | COMMIT_TYPE_WRITE.

Inductive FileType :=
| FILE_TYPE_NONE | FILE_TYPE_REGULAR | FILE_TYPE_DIR.

Record RepoInfo := { RepoInfo_Repo : Repo }.

Record CommitInfo := {
  CommitInfo_Commit : Commit;
  CommitInfo_CommitType : CommitType;
  CommitInfo_Finished : option Timestamp }.

Record FileInfo := {
  FileInfo_File : File;
  FileInfo_FileType : FileType;
  FileInfo_SizeBytes : Z;
  FileInfo_Modified : option Timestamp }.

(** [client.NewCommit(repoName, commitID)]. *)
Definition NewCommit (repoName commitID : string) : Commit :=
  {| Commit_Repo := {| Repo_Name := repoName |}; Commit_ID := commitID |}.

#[global] Instance Repo_eq_dec : EqDecision Repo.
Proof. solve_decision. Defined.
#[global] Instance Commit_eq_dec : EqDecision Commit.
Proof. solve_decision. Defined.
#[global] Instance File_eq_dec : EqDecision File.
Proof. solve_decision. Defined.

(** ** [fuse.proto]: mount configuration and node *)

Record CommitMount := {
  CommitMount_Commit : Commit;
  CommitMount_FromCommit : option Commit;
  CommitMount_Alias : string;
  CommitMount_Shard : option Shard }.

Record Filesystem := {
  Filesystem_Shard : option Shard;
  Filesystem_CommitMounts : list CommitMount }.

Record Node := {
  Node_File : File;
  Node_RepoAlias : string;
  Node_Write : bool;
  Node_Shard : option Shard;
  Node_Modified : option Timestamp }.

(** ** Errors

    The three kinds of [error] value that flow through the package:
    a [fuse.Errno] (what the kernel is answered with), the result of
    [fmt.Errorf], and an error returned by the RPC client, which carries a
    gRPC status code. *)

Inductive error :=
| Errno (errno : Z)
| Errorf (msg : string)
| RpcError (code : Z) (desc : string).

Definition EPERM : error := Errno 1.
Definition ENOENT : error := Errno 2.
Definition EINVAL : error := Errno 22.

Definition codes_Unknown : Z := 2.
Definition codes_NotFound : Z := 5.

(** [grpc.Code] of a non-nil error. *)
Definition grpc_Code (err : error) : Z :=
  match err with
  | RpcError code _ => code
  | _ => codes_Unknown
  end.

(** ** The immutable part of [struct filesystem] *)

Record filesystem := {
  filesystem_Filesystem : Filesystem;
  handleID : string }.

Definition Shard_of (f : filesystem) : option Shard :=
  Filesystem_Shard (filesystem_Filesystem f).
Definition CommitMounts (f : filesystem) : list CommitMount :=
  Filesystem_CommitMounts (filesystem_Filesystem f).

(** ** Path key and inode table *)

Definition key (file : File) : string :=
  Repo_Name (Commit_Repo (File_Commit file)) +:+ "/" +:+
  Commit_ID (File_Commit file) +:+ "/" +:+ File_Path file.

(** [filesystem.inode], with the two critical sections run back to back:
    the read-locked probe, then the write-locked re-check and
    allocation. *)
Definition inode (file : File) (inodes : gmap string Z)
  : Z * gmap string Z :=
  match inodes !! key file with
  | Some i => (i, inodes)
  | None =>
      match inodes !! key file with
      | Some i => (i, inodes)
      | None =>
          let newInode := uint64 (Z.of_nat (size inodes)) in
          (newInode, <[key file := newInode]> inodes)
      end
  end.

(** ** Mount resolution *)

(** The [for ... range] scans of [getCommitMount]: first element that
    satisfies the test. *)
Fixpoint scan (test : CommitMount → bool) (l : list CommitMount)
  : option CommitMount :=
  match l with
  | [] => None
  | commitMount :: rest =>
      if test commitMount then Some commitMount else scan test rest
  end.

Definition getCommitMount (f : filesystem) (nameOrAlias : string)
  : option CommitMount :=
  if (length (CommitMounts f) =? 0)%nat then
    Some {| CommitMount_Commit := NewCommit nameOrAlias "";
            CommitMount_FromCommit := None;
            CommitMount_Alias := "";
            CommitMount_Shard := Shard_of f |}
  else
    match scan (λ cm, String.eqb (CommitMount_Alias cm) nameOrAlias)
               (CommitMounts f) with
    | Some commitMount => Some commitMount
    | None =>
        scan (λ cm, String.eqb
                      (Repo_Name (Commit_Repo (CommitMount_Commit cm)))
                      nameOrAlias)
             (CommitMounts f)
    end.

Definition getFromCommitID (f : filesystem) (nameOrAlias : string) : string :=
  match getCommitMount f nameOrAlias with
  | None => ""
  | Some commitMount =>
      match CommitMount_FromCommit commitMount with
      | None => ""
      | Some fromCommit => Commit_ID fromCommit
      end
  end.

(** ** Outcomes of an operation *)

Inductive outcome (A : Type) :=
| Ok (a : A)
| Err (e : error)
| Panic.
Arguments Ok {A} a.
Arguments Err {A} e.
Arguments Panic {A}.

(** ** [bazil.org/fuse]: requests, responses and open flags *)

Definition OpenDirectIO : Z := Z.shiftl 1 0.
Definition OpenNonSeekable : Z := Z.shiftl 1 2.

Record ReadRequest := { ReadRequest_Offset : Z; ReadRequest_Size : Z }.
Record WriteRequest := { WriteRequest_Offset : Z; WriteRequest_Data : list Byte.byte }.

(** The fields of [fuse.Attr] that the adapter fills.  [Attr_Mtime] holds
    the timestamp whose [prototime.TimestampToTime] is stored. *)
Record Attr := {
  Attr_Valid : Z;
  Attr_Inode : Z;
  Attr_Size : Z;
  Attr_Mtime : option Timestamp;
  Attr_Mode : Z }.

Definition time_Nanosecond : Z := 1.
Definition os_ModeDir : Z := Z.shiftl 1 31.

Inductive DirentType := DT_File | DT_Dir.
Record Dirent := { Dirent_Name : string; Dirent_Type : DirentType }.

(** ** The data service

    [S] is the state of the remote service, [W] the type of the
    [io.WriteCloser] values that [PutFileWriter] hands out.  Every method
    of [client.APIClient] that the adapter calls is a transition of [S];
    a Go result [(x, err)] is a pair whose components may both be nil. *)

Section Adapter.

Context {S W : Type}.

Record APIClient := {
  InspectRepo : string → S → (option RepoInfo * option error) * S;
  InspectCommit : string → string → S → (option CommitInfo * option error) * S;
  InspectFile : string → string → string → string → option Shard → S →
                (option FileInfo * option error) * S;
  ListRepo : S → (list RepoInfo * option error) * S;
  ListCommit : string → S → (list CommitInfo * option error) * S;
  ListFile : string → string → string → string → option Shard → bool → S →
             (list FileInfo * option error) * S;
  GetFile : string → string → string → Z → Z → string → option Shard → S →
            (list Byte.byte * option error) * S;
  PutFileWriter : string → string → string → string → S →
                  (option W * option error) * S;
  MakeDirectory : string → string → string → S → option error * S;
  DeleteFile : string → string → string → S → option error * S;
  writer_Write : W → list Byte.byte → S → (Z * option error) * S;
  writer_Close : W → S → option error * S }.

(** One entry of the trace per call that reaches the service. *)
Inductive call :=
| CallInspectRepo (repo : string)
| CallInspectCommit (repo commit : string)
| CallInspectFile (repo commit path fromCommit : string) (shard : option Shard)
| CallListRepo
| CallListCommit (repo : string)
| CallListFile (repo commit path fromCommit : string) (shard : option Shard)
               (recurse : bool)
| CallGetFile (repo commit path : string) (offset size : Z)
              (fromCommit : string) (shard : option Shard)
| CallPutFileWriter (repo commit path handle : string)
| CallMakeDirectory (repo commit path : string)
| CallDeleteFile (repo commit path : string)
| CallWrite (w : W) (data : list Byte.byte)
| CallClose (w : W).

(** ** Nodes and handles

    [directory] nodes are passed by value; [file] and [handle] objects
    point at each other ([handle.f], [file.handles]) and are mutated
    through those pointers, so they live in a store and are named by
    their address. *)

Record directory := {
  directory_fs : filesystem;
  directory_Node : Node }.

Record file := {
  file_directory : directory;
  file_size : Z;
  file_local : bool;
  file_handles : list nat }.

Record handle := {
  handle_f : nat;
  handle_w : option W;
  handle_written : Z }.

(** What [fs.Node] can be in this package. *)
Inductive node :=
| DirNode (d : directory)
| FileNode (f : nat).

Record world := {
  server : S;
  trace : list call;
  inodes : gmap string Z;
  files : list file;
  handles : list handle }.

Definition set_server (s : S) (c : call) (st : world) : world :=
  {| server := s; trace := trace st ++ [c]; inodes := inodes st;
     files := files st; handles := handles st |}.
Definition set_inodes (m : gmap string Z) (st : world) : world :=
  {| server := server st; trace := trace st; inodes := m;
     files := files st; handles := handles st |}.
Definition set_files (l : list file) (st : world) : world :=
  {| server := server st; trace := trace st; inodes := inodes st;
     files := l; handles := handles st |}.
Definition set_handles (l : list handle) (st : world) : world :=
  {| server := server st; trace := trace st; inodes := inodes st;
     files := files st; handles := l |}.

(** ** The monad of operations: state, errors and panics *)

Definition M (A : Type) : Type := world → outcome A * world.

#[global] Instance M_ret : MRet M := λ A a st, (Ok a, st).
#[global] Instance M_bind : MBind M := λ A B k m st,
  match m st with
  | (Ok a, st') => k a st'
  | (Err e, st') => (Err e, st')
  | (Panic, st') => (Panic, st')
  end.

Definition fail {A} (e : error) : M A := λ st, (Err e, st).
Definition panic {A} : M A := λ st, (Panic, st).

(** A remote call: run the transition, log it. *)
Definition rpc {A} (c : call) (t : S → A * S) : M A :=
  λ st, let '(a, s) := t (server st) in (Ok a, set_server s c st).

(** Dereference of a [*file] / [*handle]; a dangling address stands for a
    nil pointer. *)
Definition get_file (a : nat) : M file :=
  λ st, match files st !! a with
        | Some f => (Ok f, st)
        | None => (Panic, st)
        end.
Definition get_handle (a : nat) : M handle :=
  λ st, match handles st !! a with
        | Some h => (Ok h, st)
        | None => (Panic, st)
        end.
Definition put_file (a : nat) (f : file) : M unit :=
  λ st, (Ok tt, set_files (<[a := f]> (files st)) st).
Definition put_handle (a : nat) (h : handle) : M unit :=
  λ st, (Ok tt, set_handles (<[a := h]> (handles st)) st).
Definition new_file (f : file) : M nat :=
  λ st, (Ok (length (files st)), set_files (files st ++ [f]) st).
Definition new_handle (h : handle) : M nat :=
  λ st, (Ok (length (handles st)), set_handles (handles st ++ [h]) st).

Variable apiClient : APIClient.

(** [path.Join] and [filepath.Join] of two elements belong to the Go
    library; the adapter only passes their result on. *)
Variable path_Join : string → string → string.
Variable filepath_Join : string → string → string.

(** ** Directory helpers *)

Definition Root (f : filesystem) : directory :=
  {| directory_fs := f;
     directory_Node :=
       {| Node_File := {| File_Commit := NewCommit "" ""; File_Path := "" |};
          Node_RepoAlias := ""; Node_Write := false;
          Node_Shard := None; Node_Modified := None |} |}.

Definition dRepo (d : directory) : string :=
  Repo_Name (Commit_Repo (File_Commit (Node_File (directory_Node d)))).
Definition dCommitID (d : directory) : string :=
  Commit_ID (File_Commit (Node_File (directory_Node d))).
Definition dPath (d : directory) : string :=
  File_Path (Node_File (directory_Node d)).

Definition copy (d : directory) : directory :=
  {| directory_fs := directory_fs d;
     directory_Node :=
       {| Node_File :=
            {| File_Commit :=
                 {| Commit_Repo := {| Repo_Name := dRepo d |};
                    Commit_ID := dCommitID d |};
               File_Path := dPath d |};
          Node_Write := Node_Write (directory_Node d);
          Node_Shard := Node_Shard (directory_Node d);
          Node_RepoAlias := Node_RepoAlias (directory_Node d);
          Node_Modified := None |} |}.

(** Field assignments on a directory value. *)
Definition with_Path (p : string) (d : directory) : directory :=
  {| directory_fs := directory_fs d;
     directory_Node :=
       {| Node_File := {| File_Commit := File_Commit (Node_File (directory_Node d));
                          File_Path := p |};
          Node_RepoAlias := Node_RepoAlias (directory_Node d);
          Node_Write := Node_Write (directory_Node d);
          Node_Shard := Node_Shard (directory_Node d);
          Node_Modified := Node_Modified (directory_Node d) |} |}.
Definition with_Commit (c : Commit) (d : directory) : directory :=
  {| directory_fs := directory_fs d;
     directory_Node :=
       {| Node_File := {| File_Commit := c; File_Path := dPath d |};
          Node_RepoAlias := Node_RepoAlias (directory_Node d);
          Node_Write := Node_Write (directory_Node d);
          Node_Shard := Node_Shard (directory_Node d);
          Node_Modified := Node_Modified (directory_Node d) |} |}.
Definition with_meta (alias : string) (shard : option Shard) (write : bool)
    (modified : option Timestamp) (d : directory) : directory :=
  {| directory_fs := directory_fs d;
     directory_Node :=
       {| Node_File := Node_File (directory_Node d);
          Node_RepoAlias := alias; Node_Write := write;
          Node_Shard := shard; Node_Modified := modified |} |}.

Definition getRepoOrAliasName (d : directory) : string :=
  if negb (String.eqb (Node_RepoAlias (directory_Node d)) "")
  then Node_RepoAlias (directory_Node d)
  else dRepo d.

(** [file.newHandle]. *)
Definition newHandle (f : nat) : M nat :=
  h ← new_handle {| handle_f := f; handle_w := None; handle_written := 0 |};
  fo ← get_file f;
  put_file f {| file_directory := file_directory fo; file_size := file_size fo;
                file_local := file_local fo;
                file_handles := file_handles fo ++ [h] |};;
  mret h.

(** ** Attributes *)

(** [filesystem.inode] on the table of the mount. *)
Definition inode_of (file : File) : M Z :=
  λ st, let '(i, m) := inode file (inodes st) in (Ok i, set_inodes m st).

(** [directory.Attr]; [a] is the attribute record on entry. *)
Definition directory_Attr (d : directory) (a : Attr) : M Attr :=
  let Mode :=
    if Node_Write (directory_Node d)
    then Z.lor os_ModeDir 509 (* 0775 *)
    else Z.lor os_ModeDir 365 (* 0555 *) in
  Inode ← inode_of (Node_File (directory_Node d));
  mret {| Attr_Valid := time_Nanosecond; Attr_Inode := Inode;
          Attr_Size := Attr_Size a;
          Attr_Mtime := Node_Modified (directory_Node d);
          Attr_Mode := Mode |}.

(** [file.Attr]. *)
Definition file_Attr (f : nat) (a : Attr) : M Attr :=
  fo ← get_file f;
  let d := file_directory fo in
  a ← (if Node_Write (directory_Node d) then
         mret {| Attr_Valid := Attr_Valid a; Attr_Inode := Attr_Inode a;
                 Attr_Size := 0; Attr_Mtime := Attr_Mtime a;
                 Attr_Mode := Attr_Mode a |}
       else
         '(fileInfo, err) ←
           rpc (CallInspectFile (dRepo d) (dCommitID d) (dPath d)
                  (getFromCommitID (directory_fs d) (getRepoOrAliasName d))
                  (Node_Shard (directory_Node d)))
               (InspectFile apiClient (dRepo d) (dCommitID d) (dPath d)
                  (getFromCommitID (directory_fs d) (getRepoOrAliasName d))
                  (Node_Shard (directory_Node d)));
         match err, file_local fo, fileInfo with
         | Some e, false, _ => fail e
         | _, _, Some fileInfo =>
             mret {| Attr_Valid := Attr_Valid a; Attr_Inode := Attr_Inode a;
                     Attr_Size := FileInfo_SizeBytes fileInfo;
                     Attr_Mtime := FileInfo_Modified fileInfo;
                     Attr_Mode := Attr_Mode a |}
         | _, _, None => mret a
         end);
  Inode ← inode_of (Node_File (directory_Node d));
  mret {| Attr_Valid := Attr_Valid a; Attr_Inode := Inode;
          Attr_Size := Attr_Size a; Attr_Mtime := Attr_Mtime a;
          Attr_Mode := 438 (* 0666 *) |}.

(** ** Operations on directories *)

(** [directory.Create]; [Flags] is [response.Flags] on entry, the result
    carries the new node, the new handle and the flags on exit. *)
Definition Create (d : directory) (Name : string) (Flags : Z)
  : M (nat * nat * Z) :=
  if String.eqb (dCommitID d) "" then fail EPERM
  else
    let directory := copy d in
    let directory := with_Path (path_Join (dPath directory) Name) directory in
    localResult ← new_file {| file_directory := directory; file_size := 0;
                              file_local := true; file_handles := [] |};
    let Flags := Z.lor Flags (Z.lor OpenDirectIO OpenNonSeekable) in
    handle ← newHandle localResult;
    mret (localResult, handle, Flags).

Definition Mkdir (d : directory) (Name : string) : M directory :=
  if String.eqb (dCommitID d) "" then fail EPERM
  else
    err ← rpc (CallMakeDirectory (dRepo d) (dCommitID d)
                 (path_Join (dPath d) Name))
              (MakeDirectory apiClient (dRepo d) (dCommitID d)
                 (path_Join (dPath d) Name));
    match err with
    | Some e => fail e
    | None =>
        let localResult := copy d in
        mret (with_Path (path_Join (dPath localResult) Name) localResult)
    end.

Definition Remove (d : directory) (Name : string) : M unit :=
  err ← rpc (CallDeleteFile (dRepo d) (dCommitID d)
               (filepath_Join (dPath d) Name))
            (DeleteFile apiClient (dRepo d) (dCommitID d)
               (filepath_Join (dPath d) Name));
  match err with
  | Some e => fail e
  | None => mret ()
  end.

Definition lookUpRepo (d : directory) (name : string) : M node :=
  match getCommitMount (directory_fs d) name with
  | None => fail EPERM
  | Some commitMount =>
      let repo := Repo_Name (Commit_Repo (CommitMount_Commit commitMount)) in
      let id := Commit_ID (CommitMount_Commit commitMount) in
      '(repoInfo, err) ← rpc (CallInspectRepo repo)
                             (InspectRepo apiClient repo);
      match err, repoInfo with
      | Some e, _ => fail e
      | None, None => fail ENOENT
      | None, Some _ =>
          let result := with_Commit (NewCommit repo id) (copy d) in
          '(commitInfo, err) ← rpc (CallInspectCommit repo id)
                                   (InspectCommit apiClient repo id);
          match err, commitInfo with
          | Some e, _ => fail e
          | None, None => panic
          | None, Some commitInfo =>
              let Write :=
                match CommitInfo_CommitType commitInfo with
                | COMMIT_TYPE_READ => false
                | _ => true
                end in
              mret (DirNode (with_meta (CommitMount_Alias commitMount)
                               (CommitMount_Shard commitMount) Write
                               (CommitInfo_Finished commitInfo) result))
          end
      end
  end.

Definition lookUpCommit (d : directory) (name : string) : M node :=
  '(commitInfo, err) ← rpc (CallInspectCommit (dRepo d) name)
                           (InspectCommit apiClient (dRepo d) name);
  match err, commitInfo with
  | Some e, _ => fail e
  | None, None => fail ENOENT
  | None, Some commitInfo =>
      let result := copy d in
      let result :=
        with_Commit {| Commit_Repo := Commit_Repo (File_Commit (Node_File
                                        (directory_Node result)));
                       Commit_ID := name |} result in
      let Write :=
        match CommitInfo_CommitType commitInfo with
        | COMMIT_TYPE_READ => false
        | _ => true
        end in
      mret (DirNode (with_meta (Node_RepoAlias (directory_Node result))
                       (Node_Shard (directory_Node result)) Write
                       (CommitInfo_Finished commitInfo) result))
  end.

(** [directory.lookUpFile].  The [FileInfo] made up for a writable
    directory has no commit; only its path and type are read. *)
Definition lookUpFile (d : directory) (name : string) : M node :=
  fileInfo ←
    (if Node_Write (directory_Node d) then
       mret {| FileInfo_File :=
                 {| File_Commit := NewCommit "" "";
                    File_Path := path_Join (dPath d) name |};
               FileInfo_FileType := FILE_TYPE_REGULAR;
               FileInfo_SizeBytes := 0;
               FileInfo_Modified := None |}
     else
       '(fileInfo, err) ←
         rpc (CallInspectFile (dRepo d) (dCommitID d)
                (path_Join (dPath d) name)
                (getFromCommitID (directory_fs d) (getRepoOrAliasName d))
                (Node_Shard (directory_Node d)))
             (InspectFile apiClient (dRepo d) (dCommitID d)
                (path_Join (dPath d) name)
                (getFromCommitID (directory_fs d) (getRepoOrAliasName d))
                (Node_Shard (directory_Node d)));
       match err, fileInfo with
       | Some _, _ => fail ENOENT
       | None, None => panic
       | None, Some fileInfo => mret fileInfo
       end);
  let directory := copy d in
  let directory :=
    with_Path (File_Path (FileInfo_File fileInfo)) directory in
  match FileInfo_FileType fileInfo with
  | FILE_TYPE_REGULAR =>
      f ← new_file {| file_directory := directory;
                      file_size := int64 (FileInfo_SizeBytes fileInfo);
                      file_local := false;
                      file_handles := [] |};
      mret (FileNode f)
  | FILE_TYPE_DIR => mret (DirNode directory)
  | _ => fail (Errorf "Unrecognized FileType.")
  end.

Definition Lookup (d : directory) (name : string) : M node :=
  if String.eqb (dRepo d) "" then lookUpRepo d name
  else if String.eqb (dCommitID d) "" then lookUpCommit d name
  else lookUpFile d name.

(** ** Directory listings *)

Definition readRepos (d : directory) : M (list Dirent) :=
  if (length (CommitMounts (directory_fs d)) =? 0)%nat then
    '(repoInfos, err) ← rpc CallListRepo (ListRepo apiClient);
    match err with
    | Some e => fail e
    | None =>
        mret (map (λ repoInfo,
                     {| Dirent_Name := Repo_Name (RepoInfo_Repo repoInfo);
                        Dirent_Type := DT_Dir |}) repoInfos)
    end
  else
    mret (map (λ mount,
                 {| Dirent_Name :=
                      if negb (String.eqb (CommitMount_Alias mount) "")
                      then CommitMount_Alias mount
                      else Repo_Name (Commit_Repo (CommitMount_Commit mount));
                    Dirent_Type := DT_Dir |})
              (CommitMounts (directory_fs d))).

Definition readCommits (d : directory) : M (list Dirent) :=
  '(commitInfos, err) ← rpc (CallListCommit (dRepo d))
                            (ListCommit apiClient (dRepo d));
  match err with
  | Some e => fail e
  | None =>
      mret (map (λ commitInfo,
                   {| Dirent_Name := Commit_ID (CommitInfo_Commit commitInfo);
                      Dirent_Type := DT_Dir |}) commitInfos)
  end.

(** The loop of [readFiles]: [result] is the slice built so far.
    [shortPath[0]] on the empty string is an index out of range. *)
Fixpoint readFiles_loop (dirPath : string) (fileInfos : list FileInfo)
    (result : list Dirent) : outcome (list Dirent) :=
  match fileInfos with
  | [] => Ok result
  | fileInfo :: fileInfos =>
      let shortPath := TrimPrefix (File_Path (FileInfo_File fileInfo)) dirPath in
      match shortPath with
      | EmptyString => Panic
      | String c rest =>
          let shortPath := if Ascii.eqb c "/"%char then rest else shortPath in
          match FileInfo_FileType fileInfo with
          | FILE_TYPE_REGULAR =>
              readFiles_loop dirPath fileInfos
                (result ++ [{| Dirent_Name := shortPath; Dirent_Type := DT_File |}])
          | FILE_TYPE_DIR =>
              readFiles_loop dirPath fileInfos
                (result ++ [{| Dirent_Name := shortPath; Dirent_Type := DT_Dir |}])
          | _ => readFiles_loop dirPath fileInfos result
          end
      end
  end.

Definition readFiles (d : directory) : M (list Dirent) :=
  '(fileInfos, err) ←
    rpc (CallListFile (dRepo d) (dCommitID d) (dPath d)
           (getFromCommitID (directory_fs d) (getRepoOrAliasName d))
           (Node_Shard (directory_Node d)) false)
        (ListFile apiClient (dRepo d) (dCommitID d) (dPath d)
           (getFromCommitID (directory_fs d) (getRepoOrAliasName d))
           (Node_Shard (directory_Node d)) false);
  match err with
  | Some e => fail e
  | None => λ st, (readFiles_loop (dPath d) fileInfos [], st)
  end.

(** The receiver of [ReadDirAll] after the call: a repository directory
    whose mount pins a commit adopts that commit and the mount's shard. *)
Definition promoted (d : directory) : directory :=
  if String.eqb (dRepo d) "" then d
  else if String.eqb (dCommitID d) "" then
    match getCommitMount (directory_fs d) (getRepoOrAliasName d) with
    | Some commitMount =>
        if negb (String.eqb (Commit_ID (CommitMount_Commit commitMount)) "")
        then
          with_meta (Node_RepoAlias (directory_Node d))
            (CommitMount_Shard commitMount)
            (Node_Write (directory_Node d)) (Node_Modified (directory_Node d))
            (with_Commit
               {| Commit_Repo := Commit_Repo (File_Commit (Node_File
                                    (directory_Node d)));
                  Commit_ID := Commit_ID (CommitMount_Commit commitMount) |} d)
        else d
    | None => d
    end
  else d.

Definition ReadDirAll (d : directory) : M (list Dirent) :=
  if String.eqb (dRepo d) "" then readRepos d
  else if String.eqb (dCommitID d) "" then
    match getCommitMount (directory_fs d) (getRepoOrAliasName d) with
    | Some commitMount =>
        if negb (String.eqb (Commit_ID (CommitMount_Commit commitMount)) "")
        then readFiles (promoted d)
        else readCommits d
    | None => readCommits d
    end
  else readFiles d.

(** ** Operations on files and handles *)

Definition Open (f : nat) (Flags : Z) : M (nat * Z) :=
  let Flags := Z.lor Flags (Z.lor OpenDirectIO OpenNonSeekable) in
  h ← newHandle f;
  mret (h, Flags).

Definition Read (h : nat) (request : ReadRequest) : M (list Byte.byte) :=
  ho ← get_handle h;
  fo ← get_file (handle_f ho);
  let d := file_directory fo in
  '(buffer, err) ←
    rpc (CallGetFile (dRepo d) (dCommitID d) (dPath d)
           (ReadRequest_Offset request) (int64 (ReadRequest_Size request))
           (getFromCommitID (directory_fs d) (getRepoOrAliasName d))
           (Node_Shard (directory_Node d)))
        (GetFile apiClient (dRepo d) (dCommitID d) (dPath d)
           (ReadRequest_Offset request) (int64 (ReadRequest_Size request))
           (getFromCommitID (directory_fs d) (getRepoOrAliasName d))
           (Node_Shard (directory_Node d)));
  match err with
  | Some e =>
      if grpc_Code e =? codes_NotFound then fail EINVAL else fail e
  | None => mret buffer
  end.

Definition gap_message : string :=
  "gap in bytes written, (OpenNonSeekable should make this impossible)".

(** [repeated := h.written - int(request.Offset)]. *)
Definition repeated_of (written : Z) (request : WriteRequest) : Z :=
  int (written - int (WriteRequest_Offset request)).

(** [handle.Write]; the result is [response.Size]. *)
Definition Write (h : nat) (request : WriteRequest) : M Z :=
  ho ← get_handle h;
  fo ← get_file (handle_f ho);
  let d := file_directory fo in
  w ← match handle_w ho with
      | Some w => mret (Some w)
      | None =>
          '(w, err) ←
            rpc (CallPutFileWriter (dRepo d) (dCommitID d) (dPath d)
                   (handleID (directory_fs d)))
                (PutFileWriter apiClient (dRepo d) (dCommitID d) (dPath d)
                   (handleID (directory_fs d)));
          match err with
          | Some e => fail e
          | None =>
              put_handle h {| handle_f := handle_f ho; handle_w := w;
                              handle_written := handle_written ho |};;
              mret w
          end
      end;
  let repeated := repeated_of (handle_written ho) request in
  if repeated <? 0 then fail (Errorf gap_message)
  else if Z.of_nat (length (WriteRequest_Data request)) <? repeated then panic
  else
    match w with
    | None => panic
    | Some w =>
        let data := drop (Z.to_nat repeated) (WriteRequest_Data request) in
        '(written, err) ← rpc (CallWrite w data) (writer_Write apiClient w data);
        match err with
        | Some e => fail e
        | None =>
            let Size := int (written + repeated) in
            put_handle h {| handle_f := handle_f ho; handle_w := Some w;
                            handle_written := int (handle_written ho + written) |};;
            let size := int64 (WriteRequest_Offset request + int64 written) in
            (if file_size fo <? size then
               put_file (handle_f ho)
                 {| file_directory := file_directory fo; file_size := size;
                    file_local := file_local fo;
                    file_handles := file_handles fo |}
             else mret ());;
            mret Size
        end
    end.

(** [handle.Flush]. *)
Definition Flush (h : nat) : M unit :=
  ho ← get_handle h;
  match handle_w ho with
  | Some w =>
      put_handle h {| handle_f := handle_f ho; handle_w := None;
                      handle_written := handle_written ho |};;
      err ← rpc (CallClose w) (writer_Close apiClient w);
      match err with
      | Some e => fail e
      | None => mret ()
      end
  | None => mret ()
  end.

(** [file.Fsync]: [Flush] on every handle of the file, stopping at the
    first error. *)
Fixpoint Fsync_loop (hs : list nat) : M unit :=
  match hs with
  | [] => mret ()
  | h :: hs => Flush h;; Fsync_loop hs
  end.

Definition Fsync (f : nat) : M unit :=
  fo ← get_file f;
  Fsync_loop (file_handles fo).

Definition Release (h : nat) : M unit := mret ().

(** ** What the service sees of the write path *)

(** The bytes handed to [Write] of a server writer, in order. *)
Fixpoint streamed (tr : list call) : list Byte.byte :=
  match tr with
  | [] => []
  | CallWrite _ data :: tr => data ++ streamed tr
  | _ :: tr => streamed tr
  end.

(** The first block of [Write]: the writer the handle goes on with, the
    error of opening it, the state of the service afterwards and the
    calls made.  An open writer is kept; otherwise [PutFileWriter] is
    asked for one. *)
Definition writer_of (st : world) (ho : handle) (fo : file)
  : option W * option error * S * list call :=
  match handle_w ho with
  | Some w => (Some w, None, server st, [])
  | None =>
      let d := file_directory fo in
      let '((w, err), s) :=
        PutFileWriter apiClient (dRepo d) (dCommitID d) (dPath d)
          (handleID (directory_fs d)) (server st) in
      (w, err, s,
       [CallPutFileWriter (dRepo d) (dCommitID d) (dPath d)
          (handleID (directory_fs d))])
  end.

End Adapter.

(** ** Path keys and tables: notions used in the statements *)

(** No ['/'] in the string. *)
Fixpoint slash_free (s : string) : bool :=
  match s with
  | EmptyString => true
  | String c s => negb (Ascii.eqb c "/") && slash_free s
  end.

(** Repository name and commit id are single path segments. *)
Definition segments (file : File) : bool :=
  slash_free (Repo_Name (Commit_Repo (File_Commit file)))
  && slash_free (Commit_ID (File_Commit file)).

(** The table after a sequence of [inode] calls. *)
Definition queries (qs : list File) (t : gmap string Z) : gmap string Z :=
  foldl (λ t q, (inode q t).2) t qs.

(** Entries are the numbers below the entry count, each used once. *)
Definition table_ok (t : gmap string Z) : Prop :=
  (∀ k i, t !! k = Some i → 0 <= i < Z.of_nat (size t)) ∧
  (∀ k1 k2 i, t !! k1 = Some i → t !! k2 = Some i → k1 = k2).

Definition fileOf (repo commit path : string) : File :=
  {| File_Commit := NewCommit repo commit; File_Path := path |}.

Definition repoName (m : CommitMount) : string :=
  Repo_Name (Commit_Repo (CommitMount_Commit m)).


(** ** A mount configuration and a data service to run the adapter on *)

Definition mount (repo id alias : string) : CommitMount :=
  {| CommitMount_Commit := NewCommit repo id;
     CommitMount_FromCommit := None;
     CommitMount_Alias := alias;
     CommitMount_Shard := None |}.

Definition mounting (mounts : list CommitMount) : filesystem :=
  {| filesystem_Filesystem :=
       {| Filesystem_Shard := None; Filesystem_CommitMounts := mounts |};
     handleID := "7b0a2c" |}.

(** Two mounts, the alias of the first being the repository name of the
    second. *)
Definition aliased : filesystem :=
  mounting [mount "R" "c2" "out"; mount "out" "c3" ""].

(** An in-memory service.  Its state is the list of byte streams received,
    one per writer; a writer is the index of its stream.  It knows one
    repository ["R"], whose commit ["c1"] is finished and whose other
    commits are open; for the name ["ghost"] it reports neither a
    repository nor an error.  Every directory holds a file ["a"] and a
    directory ["sub"], except that listing ["self"] answers with the entry
    ["self"] itself.  Reads fail: the service is unavailable for the
    finished commit and has no file in the open ones. *)
Module InMemory.

Definition state : Type := list (list Byte.byte).

Definition entry (path : string) (type : FileType) : FileInfo :=
  {| FileInfo_File := {| File_Commit := NewCommit "" ""; File_Path := path |};
     FileInfo_FileType := type;
     FileInfo_SizeBytes := 0;
     FileInfo_Modified := None |}.

Definition api : @APIClient state nat :=
  {| InspectRepo := λ repo s,
       (if String.eqb repo "R"
        then (Some {| RepoInfo_Repo := {| Repo_Name := repo |} |}, None)
        else if String.eqb repo "ghost" then (None, None)
        else (None, Some (RpcError codes_NotFound "repo not found")), s);
     InspectCommit := λ repo id s,
       ((Some {| CommitInfo_Commit := NewCommit repo id;
                 CommitInfo_CommitType :=
                   if String.eqb id "c1" then COMMIT_TYPE_READ
                   else COMMIT_TYPE_WRITE;
                 CommitInfo_Finished := None |}, None), s);
     InspectFile := λ _ _ _ _ _ s,
       ((None, Some (RpcError codes_NotFound "file not found")), s);
     ListRepo := λ s,
       (([{| RepoInfo_Repo := {| Repo_Name := "R" |} |}], None), s);
     ListCommit := λ repo s,
       (([{| CommitInfo_Commit := NewCommit repo "c1";
             CommitInfo_CommitType := COMMIT_TYPE_READ;
             CommitInfo_Finished := None |}], None), s);
     ListFile := λ _ _ path _ _ _ s,
       ((if String.eqb path "self" then [entry path FILE_TYPE_DIR]
         else [entry (path +:+ "/a") FILE_TYPE_REGULAR;
               entry (path +:+ "/sub") FILE_TYPE_DIR], None), s);
     GetFile := λ _ commit _ _ _ _ _ s,
       (([], Some (if String.eqb commit "c1"
                   then RpcError 14 "unavailable"
                   else RpcError codes_NotFound "file not found")), s);
     PutFileWriter := λ _ _ _ _ s, ((Some (length s), None), (s ++ [[]])%list);
     MakeDirectory := λ _ _ _ s, (None, s);
     DeleteFile := λ _ _ _ s, (None, s);
     writer_Write := λ w data s,
       ((Z.of_nat (length data), None), alter (λ old, old ++ data)%list w s);
     writer_Close := λ _ s, (None, s) |}.

(** [path.Join] and [filepath.Join] of two elements that are clean paths
    (no empty, ["."] or [".."] segment, no trailing ['/']), where
    [path.Clean] changes nothing: empty elements are dropped and the
    others joined with ['/']. *)
Definition join (dir name : string) : string :=
  if String.eqb dir "" then name
  else if String.eqb name "" then dir
  else dir +:+ "/" +:+ name.

Definition dir (f : filesystem) (repo id path : string) (write : bool)
  : directory :=
  {| directory_fs := f;
     directory_Node :=
       {| Node_File := fileOf repo id path;
          Node_RepoAlias := ""; Node_Write := write;
          Node_Shard := None; Node_Modified := None |} |}.

(** A fresh mount: nothing sent, nothing allocated. *)
Definition boot : @world state nat :=
  {| server := []; trace := []; inodes := ∅; files := []; handles := [] |}.

(** One file of the open commit ["c9"], opened once. *)
Definition opened (written : Z) : @world state nat :=
  {| server := []; trace := []; inodes := ∅;
     files := [{| file_directory := dir (mounting []) "R" "c9" "log" true;
                  file_size := 0; file_local := true; file_handles := [0%nat] |}];
     handles := [{| handle_f := 0%nat; handle_w := None;
                    handle_written := written |}] |}.

Definition hello : list Byte.byte := String.list_byte_of_string "hello".
Definition world_ : list Byte.byte := String.list_byte_of_string "world".

(** A directory of the finished commit ["c1"] and one of the open commit
    ["c9"], no mounts configured. *)
Definition finished (path : string) : directory :=
  dir (mounting []) "R" "c1" path false.
Definition open (path : string) : directory :=
  dir (mounting []) "R" "c9" path true.

(** One file of the finished commit, opened once. *)
Definition reading : @world state nat :=
  {| server := []; trace := []; inodes := ∅;
     files := [{| file_directory := finished "a"; file_size := 0;
                  file_local := false; file_handles := [0%nat] |}];
     handles := [{| handle_f := 0%nat; handle_w := None;
                    handle_written := 0 |}] |}.

Definition at_offset (offset : Z) (data : list Byte.byte) : WriteRequest :=
  {| WriteRequest_Offset := offset; WriteRequest_Data := data |}.

End InMemory.

(** ** Sequences of operations and the handle store *)

(** The name [readRepos] publishes for a mount; it is also what
    [getRepoOrAliasName] gives for the directory [lookUpRepo] makes of
    the mount. *)
Definition published (m : CommitMount) : string :=
  if negb (String.eqb (CommitMount_Alias m) "")
  then CommitMount_Alias m
  else repoName m.

(** No two mounts share a non-empty alias. *)
Definition unique_aliases (mounts : list CommitMount) : Prop :=
  ∀ m1 m2, m1 ∈ mounts → m2 ∈ mounts →
    CommitMount_Alias m1 = CommitMount_Alias m2 →
    CommitMount_Alias m1 ≠ "" → m1 = m2.

(** [shortPath[1:]] when [shortPath[0] == '/']. *)
Definition strip_slash (shortPath : string) : string :=
  match shortPath with
  | String c rest => if Ascii.eqb c "/" then rest else shortPath
  | EmptyString => EmptyString
  end.

(** The handle with its writer taken away. *)
Definition detached {W : Type} (ho : @handle W) : @handle W :=
  {| handle_f := handle_f ho; handle_w := None;
     handle_written := handle_written ho |}.

(** The file after [n] bytes were forwarded for a request at [offset]. *)
Definition grown (fo : file) (offset n : Z) : file :=
  {| file_directory := file_directory fo;
     file_size := Z.max (file_size fo) (int64 (offset + int64 n));
     file_local := file_local fo;
     file_handles := file_handles fo |}.

(** The writer [w] takes whatever it is given. *)
Definition takes_all {S W : Type} (apiClient : @APIClient S W) (w : W)
  : Prop :=
  ∀ data s, ∃ s',
    writer_Write apiClient w data s = ((Z.of_nat (length data), None), s').

(** Every [Close] of the service succeeds. *)
Definition closes {S W : Type} (apiClient : @APIClient S W) : Prop :=
  ∀ w s, (writer_Close apiClient w s).1 = None.

(** The kernel writing [chunks] one after the other on a handle, each at
    the offset where the one before ended; the result is the list of
    [response.Size]. *)
Fixpoint Writes {S W : Type} (apiClient : @APIClient S W) (h : nat)
    (offset : Z) (chunks : list (list Byte.byte)) : @M S W (list Z) :=
  match chunks with
  | [] => mret []
  | data :: chunks =>
      Size ← Write apiClient h
               {| WriteRequest_Offset := offset; WriteRequest_Data := data |};
      Sizes ← Writes apiClient h (offset + Z.of_nat (length data)) chunks;
      mret (Size :: Sizes)
  end.

(** Handles and files point at each other: every handle's file exists and
    lists the handle, and every entry of a file's handle list is a handle
    of that file. *)
Definition store_ok {S W : Type} (st : @world S W) : Prop :=
  (∀ h ho, handles st !! h = Some ho →
     ∃ fo, files st !! handle_f ho = Some fo ∧ h ∈ file_handles fo) ∧
  (∀ f fo h, files st !! f = Some fo → h ∈ file_handles fo →
     ∃ ho, handles st !! h = Some ho ∧ handle_f ho = f).

(** The requests of the kernel transport that the package serves. *)
Inductive request {S W : Type} :=
| ReqAttrDir (d : @directory) (a : Attr)
| ReqLookup (d : @directory) (name : string)
| ReqReadDirAll (d : @directory)
| ReqCreate (d : @directory) (name : string) (Flags : Z)
| ReqMkdir (d : @directory) (name : string)
| ReqRemove (d : @directory) (name : string)
| ReqAttrFile (f : nat) (a : Attr)
| ReqOpen (f : nat) (Flags : Z)
| ReqFsync (f : nat)
| ReqRead (h : nat) (r : ReadRequest)
| ReqWrite (h : nat) (r : WriteRequest)
| ReqFlush (h : nat)
| ReqRelease (h : nat).

(** The state a request leaves behind, whatever its outcome. *)
Definition serve {S W : Type} (apiClient : @APIClient S W)
    (path_Join filepath_Join : string → string → string)
    (r : @request S W) (st : @world S W) : @world S W :=
  match r with
  | ReqAttrDir d a => (directory_Attr d a st).2
  | ReqLookup d name => (Lookup apiClient path_Join d name st).2
  | ReqReadDirAll d => (ReadDirAll apiClient d st).2
  | ReqCreate d name Flags => (Create path_Join d name Flags st).2
  | ReqMkdir d name => (Mkdir apiClient path_Join d name st).2
  | ReqRemove d name => (Remove apiClient filepath_Join d name st).2
  | ReqAttrFile f a => (file_Attr apiClient f a st).2
  | ReqOpen f Flags => (Open f Flags st).2
  | ReqFsync f => (Fsync apiClient f st).2
  | ReqRead h r => (Read apiClient h r st).2
  | ReqWrite h r => (Write apiClient h r st).2
  | ReqFlush h => (Flush apiClient h st).2
  | ReqRelease h => (@Release S W h st).2
  end.

(** A store with no file and no handle. *)
Definition empty_store {S W : Type} (s : S) : @world S W :=
  {| server := s; trace := []; inodes := ∅; files := []; handles := [] |}.

(** A request names a file that exists; a handle that does not exist
    makes the operation stop before it changes anything. *)
Definition valid_request {S W : Type} (r : @request S W) (st : @world S W)
  : Prop :=
  match r with
  | ReqOpen f _ => is_Some (files st !! f)
  | _ => True
  end.

(** The states of a mount: from the empty store, by valid requests. *)
Inductive reachable {S W : Type} (apiClient : @APIClient S W)
    (path_Join filepath_Join : string → string → string)
  : @world S W → Prop :=
| reachable_empty (s : S) :
    reachable apiClient path_Join filepath_Join (empty_store s)
| reachable_serve (r : @request S W) (st : @world S W) :
    reachable apiClient path_Join filepath_Join st →
    valid_request r st →
    reachable apiClient path_Join filepath_Join
      (serve apiClient path_Join filepath_Join r st).

(** The directory [lookUpRepo] makes of the mount [m] when the commit
    information is [commitInfo]. *)
Definition mounted (f : filesystem) (m : CommitMount) (commitInfo : CommitInfo)
  : directory :=
  {| directory_fs := f;
     directory_Node :=
       {| Node_File :=
            {| File_Commit :=
                 NewCommit (repoName m) (Commit_ID (CommitMount_Commit m));
               File_Path := "" |};
          Node_RepoAlias := CommitMount_Alias m;
          Node_Write :=
            match CommitInfo_CommitType commitInfo with
            | COMMIT_TYPE_READ => false
            | _ => true
            end;
          Node_Shard := CommitMount_Shard m;
          Node_Modified := CommitInfo_Finished commitInfo |} |}.

(** The directory a node stands for: the node itself, or the directory
    embedded in the file. *)
Definition node_directory {S W : Type} (st : @world S W) (n : node)
  : option directory :=
  match n with
  | DirNode d => Some d
  | FileNode f => file_directory <$> files st !! f
  end.

(** The entry [readFiles] publishes for a file whose path is the
    directory's path followed by [rest]. *)
Definition dirent_of (entry : FileInfo * string) : option Dirent :=
  match FileInfo_FileType entry.1 with
  | FILE_TYPE_REGULAR =>
      Some {| Dirent_Name := strip_slash entry.2; Dirent_Type := DT_File |}
  | FILE_TYPE_DIR =>
      Some {| Dirent_Name := strip_slash entry.2; Dirent_Type := DT_Dir |}
  | FILE_TYPE_NONE => None
  end.

(** ** The persist server: the commit index of a job

    [genCommitIndex] of [rethink_api_server.go].  The commits are not
    nil and have a repository. *)

(** The order of Go strings: byte by byte, a proper prefix first. *)
Fixpoint string_leb (s1 s2 : string) : bool :=
  match s1, s2 with
  | EmptyString, _ => true
  | String _ _, EmptyString => false
  | String c1 s1, String c2 s2 =>
      if (N_of_ascii c1 <? N_of_ascii c2)%N then true
      else if (N_of_ascii c1 =? N_of_ascii c2)%N then string_leb s1 s2
      else false
  end.

Definition string_le (s1 s2 : string) : Prop := string_leb s1 s2 = true.

#[global] Instance string_le_dec (s1 s2 : string) : Decision (string_le s1 s2).
Proof. unfold string_le. apply _. Defined.

(** What [sort.Strings] of the Go library promises: the same strings, in
    increasing order. *)
Definition sorts (sort_Strings : list string → list string) : Prop :=
  ∀ l, sort_Strings l ≡ₚ l ∧ Sorted string_le (sort_Strings l).

(** The double quote of the message of [genCommitIndex]. *)
Definition quote : string := String "034"%char EmptyString.

(** The first loop of [genCommitIndex]; [commit.ID[0:10]] is out of range
    for an id shorter than ten bytes. *)
Fixpoint genCommitIndex_loop (commits : list Commit) (commitIDs : list string)
  : outcome (list string) :=
  match commits with
  | [] => Ok commitIDs
  | commit :: commits =>
      if (String.length (Commit_ID commit) =? 0)%nat then
        Err (Errorf ("can't generate index for commit " +:+ quote +:+
                     Repo_Name (Commit_Repo commit) +:+ "/" +:+
                     Commit_ID commit +:+ quote))
      else if (String.length (Commit_ID commit) <? 10)%nat then Panic
      else genCommitIndex_loop commits
             (commitIDs ++ [String.substring 0 10 (Commit_ID commit)])
  end.

Definition genCommitIndex (sort_Strings : list string → list string)
    (commits : list Commit) : outcome string :=
  match genCommitIndex_loop commits [] with
  | Ok commitIDs =>
      Ok (foldl (λ result commitID, result +:+ commitID) ""
                (sort_Strings commitIDs))
  | Err e => Err e
  | Panic => Panic
  end.

(** An id of ten bytes or more, and its first ten bytes. *)
Definition long (commit : Commit) : Prop :=
  (10 ≤ String.length (Commit_ID commit))%nat.

Definition prefix10 (commit : Commit) : string :=
  String.substring 0 10 (Commit_ID commit).

(** [sort.Strings] as a merge sort. *)
Definition merge_Strings : list string → list string := merge_sort string_le.

(** The in-memory service with two faults: every [Close] fails, and the
    question about a commit is answered with neither a commit nor an
    error. *)
Module Faulty.

Definition api : @APIClient InMemory.state nat :=
  {| InspectRepo := InspectRepo InMemory.api;
     InspectCommit := λ _ _ s, ((None, None), s);
     InspectFile := InspectFile InMemory.api;
     ListRepo := ListRepo InMemory.api;
     ListCommit := ListCommit InMemory.api;
     ListFile := ListFile InMemory.api;
     GetFile := GetFile InMemory.api;
     PutFileWriter := PutFileWriter InMemory.api;
     MakeDirectory := MakeDirectory InMemory.api;
     DeleteFile := DeleteFile InMemory.api;
     writer_Write := writer_Write InMemory.api;
     writer_Close := λ _ s, (Some (RpcError 14 "unavailable"), s) |}.

End Faulty.

(** States of a mount on the in-memory service. *)
Module Scenes.
Import InMemory.

(** The file ["log"] of the open commit after ["hello"] was written at
    offset 0: one handle, its writer open. *)
Definition streaming : @world state nat :=
  (Write api 0 (at_offset 0 hello) (opened 0)).2.

(** The same file opened a second time. *)
Definition two_handles : @world state nat := (@Open state nat 0 0 streaming).2.

Definition log_file (size : Z) (handles : list nat) : file :=
  {| file_directory := dir (mounting []) "R" "c9" "log" true;
     file_size := size; file_local := true; file_handles := handles |}.

Definition log_handle (w : option nat) (written : Z) : @handle nat :=
  {| handle_f := 0%nat; handle_w := w; handle_written := written |}.

Definition blank : Attr :=
  {| Attr_Valid := 0; Attr_Inode := 0; Attr_Size := 0; Attr_Mtime := None;
     Attr_Mode := 0 |}.

Definition commit_out : CommitInfo :=
  {| CommitInfo_Commit := NewCommit "R" "c2";
     CommitInfo_CommitType := COMMIT_TYPE_WRITE;
     CommitInfo_Finished := None |}.

Definition commit_c1 : CommitInfo :=
  {| CommitInfo_Commit := NewCommit "R" "c1";
     CommitInfo_CommitType := COMMIT_TYPE_READ;
     CommitInfo_Finished := None |}.

Definition commits_ab : list Commit :=
  [NewCommit "R" "b1946ac92492d234"; NewCommit "S" "591785b794601e21"].

Definition commits_ba : list Commit :=
  [NewCommit "S" "591785b794XYZ"; NewCommit "T" "b1946ac924"].

End Scenes.

(** * Properties *)

(** ** Machine integers: values in range are not changed by the wrap *)

Lemma int64_id (z : Z) : in_int64 z → int64 z = z.
Proof.
  unfold in_int64, int64. intros Hz.
  rewrite Z.mod_small by lia. lia.
Qed.

Lemma int_id (z : Z) : in_int64 z → int z = z.
Proof. apply int64_id. Qed.

Lemma uint64_id (z : Z) : 0 <= z < 2 ^ 64 → uint64 z = z.
Proof. intros Hz. unfold uint64. by rewrite Z.mod_small. Qed.

(** ** Strings *)

Lemma append_cons (c : ascii) (p s : string) :
  String c p +:+ s = String c (p +:+ s).
Proof. reflexivity. Qed.

Lemma append_nil (s : string) : "" +:+ s = s.
Proof. reflexivity. Qed.

Lemma substring_all (s : string) : String.substring 0 (String.length s) s = s.
Proof. induction s as [|c s IH]; [done|]. simpl. by rewrite IH. Qed.

Lemma substring_head (p s : string) :
  String.substring 0 (String.length p) (p +:+ s) = p.
Proof.
  induction p as [|c p IH]; [rewrite append_nil; by destruct s|].
  rewrite append_cons. simpl. by rewrite IH.
Qed.

Lemma substring_tail (p s : string) :
  String.substring (String.length p) (String.length s) (p +:+ s) = s.
Proof.
  induction p as [|c p IH]; [rewrite append_nil; apply substring_all|].
  rewrite append_cons. simpl. exact IH.
Qed.

Lemma length_append (p s : string) :
  String.length (p +:+ s) = (String.length p + String.length s)%nat.
Proof.
  induction p as [|c p IH]; [done|].
  rewrite append_cons. simpl. by rewrite IH.
Qed.

Lemma HasPrefix_append (p s : string) : HasPrefix (p +:+ s) p = true.
Proof.
  unfold HasPrefix. rewrite substring_head, String.eqb_refl, length_append.
  rewrite andb_true_r. apply Nat.leb_le. lia.
Qed.

(** Stripping the directory path from a path below it leaves the rest. *)
Lemma TrimPrefix_append (p s : string) : TrimPrefix (p +:+ s) p = s.
Proof.
  unfold TrimPrefix. rewrite HasPrefix_append, length_append.
  replace (String.length p + String.length s - String.length p)%nat
    with (String.length s) by lia.
  apply substring_tail.
Qed.

Lemma append_empty_r (p : string) : p +:+ "" = p.
Proof. induction p as [|c p IH]; [done|]. rewrite append_cons. by rewrite IH. Qed.

Lemma TrimPrefix_self (p : string) : TrimPrefix p p = "".
Proof.
  rewrite <- (append_empty_r p) at 1. apply TrimPrefix_append.
Qed.

(** ** Path keys *)

Lemma split_at_slash (a a' x x' : string) :
  slash_free a = true → slash_free a' = true →
  a +:+ "/" +:+ x = a' +:+ "/" +:+ x' → a = a' ∧ x = x'.
Proof.
  revert a'. induction a as [|c a IH]; intros [|c' a'] Ha Ha' Heq;
    rewrite ?append_cons, ?append_nil in Heq; simpl in Ha, Ha'.
  - by inversion Heq.
  - inversion Heq; subst c'. by rewrite Ascii.eqb_refl in Ha'.
  - inversion Heq; subst c. by rewrite Ascii.eqb_refl in Ha.
  - inversion Heq; subst c'.
    apply andb_true_iff in Ha as [_ Ha]. apply andb_true_iff in Ha' as [_ Ha'].
    destruct (IH a' Ha Ha' ltac:(done)) as [-> ->]. done.
Qed.

(** On triples whose repository and commit are single segments the key
    determines the triple. *)
Lemma key_inj (f1 f2 : File) :
  segments f1 = true → segments f2 = true → key f1 = key f2 → f1 = f2.
Proof.
  destruct f1 as [[[r1] c1] p1], f2 as [[[r2] c2] p2].
  unfold segments, key; cbn. intros H1 H2 Heq.
  apply andb_true_iff in H1 as [Hr1 Hc1]. apply andb_true_iff in H2 as [Hr2 Hc2].
  destruct (split_at_slash _ _ _ _ Hr1 Hr2 Heq) as [-> Heq'].
  destruct (split_at_slash _ _ _ _ Hc1 Hc2 Heq') as [-> ->]. done.
Qed.

(** ** The inode table *)

Lemma table_ok_empty : table_ok ∅.
Proof. split; intros *; by rewrite lookup_empty. Qed.

Lemma inode_lookup (f : File) (t : gmap string Z) :
  (inode f t).2 !! key f = Some (inode f t).1.
Proof.
  unfold inode. destruct (t !! key f) eqn:E; cbn; [done|].
  by rewrite lookup_insert_eq.
Qed.

Lemma inode_keeps (f : File) (t : gmap string Z) k i :
  t !! k = Some i → (inode f t).2 !! k = Some i.
Proof.
  unfold inode. intros Hk. destruct (t !! key f) eqn:E; cbn; [done|].
  rewrite lookup_insert_ne; [done|]. congruence.
Qed.

Lemma inode_size (f : File) (t : gmap string Z) :
  (size (inode f t).2 ≤ S (size t))%nat.
Proof.
  unfold inode. destruct (t !! key f) eqn:E; cbn; [lia|].
  rewrite map_size_insert_None by done. lia.
Qed.

Lemma inode_ok (f : File) (t : gmap string Z) :
  Z.of_nat (size t) < 2 ^ 64 → table_ok t → table_ok (inode f t).2.
Proof.
  intros Hsz [Hrange Hinj]. unfold inode.
  destruct (t !! key f) eqn:E; cbn; [done|].
  rewrite uint64_id by lia. split.
  - intros k i. rewrite map_size_insert_None by done.
    rewrite lookup_insert. case_decide; intros Hk.
    + inversion Hk. lia.
    + apply Hrange in Hk. lia.
  - intros k1 k2 i. rewrite !lookup_insert.
    repeat case_decide; intros H1 H2; simplify_eq; try done.
    + apply Hrange in H2. lia.
    + apply Hrange in H1. lia.
    + eauto.
Qed.

Lemma queries_keeps qs (t : gmap string Z) k i :
  t !! k = Some i → queries qs t !! k = Some i.
Proof.
  revert t. induction qs as [|q qs IH]; intros t Hk; cbn; [done|].
  apply IH. by apply inode_keeps.
Qed.

Lemma queries_size qs (t : gmap string Z) :
  (size (queries qs t) ≤ size t + length qs)%nat.
Proof.
  revert t. induction qs as [|q qs IH]; intros t; cbn; [lia|].
  specialize (IH (inode q t).2). pose proof (inode_size q t). unfold queries in IH. lia.
Qed.

Lemma queries_ok qs (t : gmap string Z) :
  Z.of_nat (size t + length qs) <= 2 ^ 64 → table_ok t → table_ok (queries qs t).
Proof.
  revert t. induction qs as [|q qs IH]; intros t Hsz Hok; cbn; [done|].
  cbn in Hsz. apply IH.
  - pose proof (inode_size q t). lia.
  - apply inode_ok; [lia|done].
Qed.

(** C5, as the code has it.  Let any sequence of [inode] calls be made on
    the empty table of a fresh mount, then a query for [f1], then any
    further calls, then a query for [f2] (at most [2^64] calls in all).
    The two answers are 64-bit values; they are equal exactly when the
    two triples have the same key, so a triple is answered with the same
    inode every time; and for triples whose repository name and commit id
    contain no ['/'] they are equal exactly when the triples are equal. *)
Theorem inode_stable_and_unique (before between : list File) (f1 f2 : File) :
  Z.of_nat (length before + length between) + 2 <= 2 ^ 64 →
  let t1 := inode f1 (queries before ∅) in
  let t2 := inode f2 (queries between t1.2) in
  0 <= t1.1 < 2 ^ 64 ∧
  (t1.1 = t2.1 ↔ key f1 = key f2) ∧
  (segments f1 = true → segments f2 = true → (t1.1 = t2.1 ↔ f1 = f2)).
Proof.
  intros Hn t1 t2.
  pose proof (queries_size before ∅) as Hs0. rewrite map_size_empty in Hs0.
  assert (table_ok (queries before ∅)) as Hok0.
  { apply queries_ok; [rewrite map_size_empty; lia|apply table_ok_empty]. }
  pose proof (inode_size f1 (queries before ∅)) as Hs1. fold t1 in Hs1.
  assert (table_ok t1.2) as Hok1 by (apply inode_ok; [lia|done]).
  pose proof (queries_size between t1.2) as Hs2.
  assert (table_ok (queries between t1.2)) as Hok2 by (apply queries_ok; [lia|done]).
  assert (table_ok t2.2) as [_ Hinj] by (apply inode_ok; [lia|done]).
  assert (t2.2 !! key f1 = Some t1.1) as H1.
  { apply inode_keeps, queries_keeps, inode_lookup. }
  assert (t2.2 !! key f2 = Some t2.1) as H2 by apply inode_lookup.
  assert (t1.1 = t2.1 ↔ key f1 = key f2) as Hkey.
  { split.
    - intros Heq. rewrite <- Heq in H2. by eapply Hinj.
    - intros Heq. rewrite Heq in H1. congruence. }
  split; [|split; [done|]].
  - destruct Hok1 as [Hrange _].
    specialize (Hrange _ _ (inode_lookup f1 (queries before ∅))). fold t1 in Hrange.
    lia.
  - intros Hf1 Hf2. rewrite Hkey. split; [by apply key_inj|by intros ->].
Qed.

Lemma inode_stable_and_unique_witness :
  let t1 := inode (fileOf "R" "c1" "a") (queries [fileOf "" "" ""] ∅) in
  let t2 := inode (fileOf "R" "c1" "b") (queries [fileOf "R" "" ""] t1.2) in
  0 <= t1.1 < 2 ^ 64 ∧
  (t1.1 = t2.1 ↔ key (fileOf "R" "c1" "a") = key (fileOf "R" "c1" "b")) ∧
  (segments (fileOf "R" "c1" "a") = true →
   segments (fileOf "R" "c1" "b") = true →
   (t1.1 = t2.1 ↔ fileOf "R" "c1" "a" = fileOf "R" "c1" "b")).
Proof.
  apply (inode_stable_and_unique [fileOf "" "" ""] [fileOf "R" "" ""]).
  simpl. lia.
Defined.

(** C5 as stated fails: the key runs repository, commit and path together
    with ['/'], so two triples that differ only in where the commit id
    ends share a key, and with it an inode. *)
Lemma inode_shared_by_distinct_triples :
  fileOf "R" "master/0" "a" ≠ fileOf "R" "master" "0/a" ∧
  (inode (fileOf "R" "master" "0/a")
         (inode (fileOf "R" "master/0" "a") ∅).2).1
  = (inode (fileOf "R" "master/0" "a") ∅).1.
Proof.
  split; [discriminate|].
  pose proof (inode_lookup (fileOf "R" "master/0" "a") ∅) as H.
  change (key (fileOf "R" "master/0" "a"))
    with (key (fileOf "R" "master" "0/a")) in H.
  unfold inode at 1. by rewrite H.
Qed.

(** ** Mount resolution *)

Lemma scan_Some test l m :
  scan test l = Some m →
  ∃ pre post, l = (pre ++ m :: post)%list ∧ test m = true
              ∧ Forall (λ x, test x = false) pre.
Proof.
  induction l as [|x l IH]; cbn; [done|].
  destruct (test x) eqn:E.
  - intros [= ->]. by exists [], l.
  - intros (pre & post & -> & Hm & Hpre)%IH.
    exists (x :: pre), post. by repeat constructor.
Qed.

Lemma scan_elem test l m :
  m ∈ l → test m = true → is_Some (scan test l).
Proof.
  induction 1 as [x l|x y l _ IH]; cbn; intros Hm.
  - rewrite Hm. eauto.
  - destruct (test y); eauto.
Qed.

Lemma scan_None test l :
  Forall (λ x, test x = false) l → scan test l = None.
Proof. induction 1 as [|x l Hx _ IH]; cbn; [done|]. by rewrite Hx. Qed.

Lemma scan_ext test1 test2 l :
  (∀ x, test1 x = test2 x) → scan test1 l = scan test2 l.
Proof.
  intros Hext. induction l as [|x l IH]; cbn; [done|]. by rewrite Hext, IH.
Qed.

Lemma scan_head_filter (P : CommitMount → Prop) `{!∀ x, Decision (P x)} l :
  scan (λ x, bool_decide (P x)) l = head (filter P l).
Proof.
  induction l as [|x l IH]; [done|].
  rewrite filter_cons. cbn [scan].
  case_bool_decide; case_decide; done.
Qed.

(** C8.  With commit mounts configured: if some mount has alias [s],
    [getCommitMount] returns the first mount of the list whose alias is
    [s], whatever the repository names are; and if no mount has alias [s]
    the result is the first mount whose repository name is [s], if any. *)
Theorem getCommitMount_alias_first (f : filesystem) (s : string) :
  CommitMounts f ≠ [] →
  (∀ m, m ∈ CommitMounts f → CommitMount_Alias m = s →
     ∃ pre first post,
       CommitMounts f = (pre ++ first :: post)%list ∧
       CommitMount_Alias first = s ∧
       Forall (λ m', CommitMount_Alias m' ≠ s) pre ∧
       getCommitMount f s = Some first) ∧
  (Forall (λ m, CommitMount_Alias m ≠ s) (CommitMounts f) →
     getCommitMount f s = head (filter (λ m, repoName m = s) (CommitMounts f))).
Proof.
  intros Hne. unfold getCommitMount.
  destruct (CommitMounts f) as [|m0 l] eqn:El; [done|]. cbn [length Nat.eqb].
  set (mounts := m0 :: l). split.
  - intros m Hin Halias.
    destruct (scan_elem (λ cm, String.eqb (CommitMount_Alias cm) s) mounts m Hin)
      as [first Hfirst]; [by apply String.eqb_eq|].
    rewrite Hfirst.
    apply scan_Some in Hfirst as (pre & post & Hl & Hm%String.eqb_eq & Hpre).
    exists pre, first, post. split; [done|]. split; [done|]. split; [|done].
    eapply Forall_impl; [exact Hpre|]. cbn. intros x Hx. by apply String.eqb_neq.
  - intros Hnone. rewrite scan_None.
    + rewrite <- (scan_head_filter (λ m, repoName m = s)).
      apply scan_ext. intros x. unfold repoName.
      destruct (String.eqb_spec (Repo_Name (Commit_Repo (CommitMount_Commit x))) s);
        case_bool_decide; done.
    + eapply Forall_impl; [exact Hnone|]. cbn. intros x Hx. by apply String.eqb_neq.
Qed.

(** A name that no mount answers to, by alias or by repository. *)
Lemma getCommitMount_unknown (f : filesystem) (name : string) :
  CommitMounts f ≠ [] →
  Forall (λ m, CommitMount_Alias m ≠ name ∧ repoName m ≠ name)
         (CommitMounts f) →
  getCommitMount f name = None.
Proof.
  intros Hne Hnone. unfold getCommitMount.
  destruct (CommitMounts f) as [|m0 l]; [done|]. cbn [length Nat.eqb].
  rewrite scan_None.
  - apply scan_None. eapply Forall_impl; [exact Hnone|].
    intros m [_ Hm]. by apply String.eqb_neq.
  - eapply Forall_impl; [exact Hnone|].
    intros m [Hm _]. by apply String.eqb_neq.
Qed.

Lemma getCommitMount_alias_first_witness :
  ∃ pre first post,
    CommitMounts aliased = (pre ++ first :: post)%list ∧
    CommitMount_Alias first = "out" ∧
    Forall (λ m', CommitMount_Alias m' ≠ "out") pre ∧
    getCommitMount aliased "out" = Some first.
Proof.
  apply (proj1 (getCommitMount_alias_first aliased "out" ltac:(discriminate))
               (mount "R" "c2" "out")); [left|reflexivity].
Defined.

Example aliased_out : getCommitMount aliased "out" = Some (mount "R" "c2" "out").
Proof. reflexivity. Qed.

Example aliased_R : getCommitMount aliased "R" = Some (mount "R" "c2" "out").
Proof. reflexivity. Qed.

(** ** Operations against an arbitrary service *)

Section Properties.

Context {S W : Type} (apiClient : @APIClient S W).
Variables path_Join filepath_Join : string → string → string.

Abbreviation world := (@world S W).
Abbreviation call := (@call W).

(** Unfolding of the monad and of the store accesses. *)
Ltac step :=
  unfold mbind, M_bind, mret, M_ret, fail, panic, rpc,
    get_handle, get_file, put_handle, put_file, new_file, new_handle.

Lemma streamed_app (tr1 tr2 : list call) :
  streamed (tr1 ++ tr2) = (streamed tr1 ++ streamed tr2)%list.
Proof.
  induction tr1 as [|c tr1 IH]; [done|].
  destruct c; cbn; rewrite ?IH; try done. by rewrite app_assoc.
Qed.

(** ** [handle.Read] *)

(** C7.  When [GetFile] fails, [Read] answers [EINVAL] if the error's
    gRPC code is [NotFound], and hands any other error on as it is. *)
Theorem Read_GetFile_error (h : nat) (request : ReadRequest) (st : world)
    (ho : handle) (fo : file) (buffer : list Byte.byte) (e : error) (s' : S) :
  handles st !! h = Some ho →
  files st !! handle_f ho = Some fo →
  GetFile apiClient
    (dRepo (file_directory fo)) (dCommitID (file_directory fo))
    (dPath (file_directory fo))
    (ReadRequest_Offset request) (int64 (ReadRequest_Size request))
    (getFromCommitID (directory_fs (file_directory fo))
       (getRepoOrAliasName (file_directory fo)))
    (Node_Shard (directory_Node (file_directory fo)))
    (server st) = ((buffer, Some e), s') →
  (grpc_Code e = codes_NotFound →
     (Read apiClient h request st).1 = Err EINVAL) ∧
  (grpc_Code e ≠ codes_NotFound →
     (Read apiClient h request st).1 = Err e).
Proof.
  intros Hh Hf Hget. unfold Read. step. rewrite Hh. cbn. rewrite Hf. cbn.
  rewrite Hget. cbn. split; intros Hcode.
  - by rewrite Hcode.
  - apply Z.eqb_neq in Hcode. by rewrite Hcode.
Qed.

(** ** [handle.Write] *)

Lemma streamed_writer_of st ho fo w err s pre :
  writer_of apiClient st ho fo = (w, err, s, pre) → streamed pre = [].
Proof.
  unfold writer_of. destruct (handle_w ho).
  - by intros [= <- <- <- <-].
  - destruct (PutFileWriter _ _ _ _ _ _) as [[w' err'] s0]. by intros [= <- <- <- <-].
Qed.

Lemma repeated_of_exact (written : Z) (request : WriteRequest) :
  0 <= written < 2 ^ 63 → 0 <= WriteRequest_Offset request < 2 ^ 63 →
  repeated_of written request = written - WriteRequest_Offset request.
Proof.
  intros Hw Ho. unfold repeated_of.
  rewrite (int_id (WriteRequest_Offset request)) by (unfold in_int64; lia).
  apply int_id. unfold in_int64. lia.
Qed.

(** A gap: the error of opening the writer if that fails, else the
    message; nothing is passed to the writer. *)
Lemma Write_gap (h : nat) (request : WriteRequest) (st : world)
    (ho : handle) (fo : file) w err s0 pre :
  handles st !! h = Some ho →
  files st !! handle_f ho = Some fo →
  writer_of apiClient st ho fo = (w, err, s0, pre) →
  repeated_of (handle_written ho) request < 0 →
  ∃ st', Write apiClient h request st
         = (Err (default (Errorf gap_message) err), st')
         ∧ trace st' = (trace st ++ pre)%list ∧ server st' = s0.
Proof.
  intros Hh Hf Hw Hrep. apply Z.ltb_lt in Hrep.
  unfold Write, writer_of in *. step. rewrite Hh. cbn. rewrite Hf. cbn.
  destruct (handle_w ho) as [w0|].
  - injection Hw as <- <- <- <-. cbn. rewrite Hrep.
    eexists; split; [done|]. by rewrite app_nil_r.
  - destruct (PutFileWriter _ _ _ _ _ _) as [[w' [e|]] s1];
      injection Hw as <- <- <- <-; cbn.
    + eexists; split; [done|]. done.
    + rewrite Hrep. eexists; split; [done|]. done.
Qed.

(** More repeated bytes than the request holds: [data[repeated:]] is out
    of range. *)
Lemma Write_overlap (h : nat) (request : WriteRequest) (st : world)
    (ho : handle) (fo : file) w s0 pre :
  handles st !! h = Some ho →
  files st !! handle_f ho = Some fo →
  writer_of apiClient st ho fo = (w, None, s0, pre) →
  Z.of_nat (length (WriteRequest_Data request))
    < repeated_of (handle_written ho) request →
  (Write apiClient h request st).1 = Panic.
Proof.
  intros Hh Hf Hw Hrep.
  assert ((repeated_of (handle_written ho) request <? 0) = false) as Hge
    by (apply Z.ltb_ge; lia).
  apply Z.ltb_lt in Hrep.
  unfold Write, writer_of in *. step. rewrite Hh. cbn. rewrite Hf. cbn.
  destruct (handle_w ho) as [w0|].
  - cbn. by rewrite Hge, Hrep.
  - destruct (PutFileWriter _ _ _ _ _ _) as [[w' [e|]] s1]; [done|].
    cbn. by rewrite Hge, Hrep.
Qed.

(** A write that the writer takes without error. *)
Lemma Write_forward (h : nat) (request : WriteRequest) (st : world)
    (ho : handle) (fo : file) w s0 pre n s1 :
  handles st !! h = Some ho →
  files st !! handle_f ho = Some fo →
  writer_of apiClient st ho fo = (Some w, None, s0, pre) →
  let r := repeated_of (handle_written ho) request in
  let rest := drop (Z.to_nat r) (WriteRequest_Data request) in
  0 <= r <= Z.of_nat (length (WriteRequest_Data request)) →
  writer_Write apiClient w rest s0 = ((n, None), s1) →
  ∃ st' fo',
    Write apiClient h request st = (Ok (int (n + r)), st') ∧
    trace st' = (trace st ++ pre ++ [CallWrite w rest])%list ∧
    server st' = s1 ∧
    handles st' !! h = Some {| handle_f := handle_f ho; handle_w := Some w;
                               handle_written := int (handle_written ho + n) |} ∧
    files st' !! handle_f ho = Some fo' ∧
    file_directory fo' = file_directory fo.
Proof.
  intros Hh Hf Hw r rest Hr Hwrite.
  assert ((r <? 0) = false) as Hge by (apply Z.ltb_ge; lia).
  assert ((Z.of_nat (length (WriteRequest_Data request)) <? r) = false) as Hle
    by (apply Z.ltb_ge; lia).
  pose proof (lookup_lt_Some _ _ _ Hh) as Hlen.
  pose proof (lookup_lt_Some _ _ _ Hf) as Hflen.
  unfold Write, writer_of in *. step. rewrite Hh. cbn. rewrite Hf. cbn.
  fold r. fold rest.
  destruct (handle_w ho) as [w0|].
  - injection Hw as <- <- <-. cbn. rewrite Hge, Hle. cbn. rewrite Hwrite. cbn.
    destruct (file_size fo <? _); cbn.
    + eexists _, _. split; [done|]. cbn.
      rewrite list_lookup_insert_eq by done.
      rewrite list_lookup_insert_eq by done. done.
    + eexists _, _. split; [done|]. cbn.
      rewrite list_lookup_insert_eq by done. done.
  - destruct (PutFileWriter _ _ _ _ _ _) as [[w' [e|]] s2]; [done|].
    injection Hw as -> <- <-. cbn. rewrite Hge, Hle. cbn. rewrite Hwrite. cbn.
    destruct (file_size fo <? _); cbn.
    + eexists _, _. split; [done|]. cbn.
      rewrite list_lookup_insert_eq by (by rewrite length_insert).
      rewrite list_lookup_insert_eq by done.
      by rewrite <- app_assoc.
    + eexists _, _. split; [done|]. cbn.
      rewrite list_lookup_insert_eq by (by rewrite length_insert).
      by rewrite <- app_assoc.
Qed.

(** C1.  Take a handle that has written nothing yet, whose writer is open
    or is opened without error by the first call, and let the writer take
    what it is given.  Then [write(h, 0, A)] hands [A] to the writer and
    reports size [|A|]; the following [write(h, 0, A ++ B)] hands only
    [B] to the same writer and reports size [|A| + |B|]; the bytes the
    service has received through the two calls are [A ++ B]. *)
Theorem Write_duplicate_window (h : nat) (A B : list Byte.byte) (st : world)
    (ho : handle) (fo : file) (w : W) (pre : list call) (s0 s1 s2 : S) :
  handles st !! h = Some ho →
  files st !! handle_f ho = Some fo →
  handle_written ho = 0 →
  Z.of_nat (length A + length B) < 2 ^ 63 →
  writer_of apiClient st ho fo = (Some w, None, s0, pre) →
  writer_Write apiClient w A s0 = ((Z.of_nat (length A), None), s1) →
  writer_Write apiClient w B s1 = ((Z.of_nat (length B), None), s2) →
  ∃ st1 st2,
    Write apiClient h {| WriteRequest_Offset := 0; WriteRequest_Data := A |} st
      = (Ok (Z.of_nat (length A)), st1) ∧
    Write apiClient h
      {| WriteRequest_Offset := 0; WriteRequest_Data := A ++ B |} st1
      = (Ok (Z.of_nat (length A) + Z.of_nat (length B)), st2) ∧
    trace st1 = (trace st ++ pre ++ [CallWrite w A])%list ∧
    trace st2 = (trace st1 ++ [CallWrite w B])%list ∧
    streamed (trace st2) = (streamed (trace st) ++ A ++ B)%list ∧
    server st2 = s2.
Proof.
  intros Hh Hf Hzero Hsize Hw HA HB.
  assert (∀ z, 0 <= z < 2 ^ 63 → int z = z) as Hint
    by (intros z Hz; apply int_id; unfold in_int64; lia).
  (* first call: nothing repeated *)
  assert (repeated_of (handle_written ho)
            {| WriteRequest_Offset := 0; WriteRequest_Data := A |} = 0) as Hrep0.
  { rewrite repeated_of_exact; cbn; lia. }
  destruct (Write_forward h
              {| WriteRequest_Offset := 0; WriteRequest_Data := A |}
              st ho fo w s0 pre (Z.of_nat (length A)) s1 Hh Hf Hw)
    as (st1 & fo1 & Hcall1 & Htr1 & Hs1 & Hh1 & Hf1 & _).
  { rewrite Hrep0. cbn. lia. }
  { rewrite Hrep0. exact HA. }
  rewrite Hrep0 in Hcall1, Htr1. rewrite Hzero in Hh1.
  cbn [WriteRequest_Data] in Htr1. change (drop (Z.to_nat 0) A) with A in Htr1.
  rewrite Z.add_0_r, Hint in Hcall1 by lia.
  rewrite Z.add_0_l, Hint in Hh1 by lia.
  (* second call: [A] is repeated *)
  set (ho1 := {| handle_f := handle_f ho; handle_w := Some w;
                 handle_written := Z.of_nat (length A) |}) in *.
  assert (repeated_of (handle_written ho1)
            {| WriteRequest_Offset := 0; WriteRequest_Data := A ++ B |}
          = Z.of_nat (length A)) as Hrep.
  { rewrite repeated_of_exact; cbn; lia. }
  destruct (Write_forward h
              {| WriteRequest_Offset := 0; WriteRequest_Data := A ++ B |}
              st1 ho1 fo1 w (server st1) [] (Z.of_nat (length B)) s2 Hh1 Hf1
              eq_refl)
    as (st2 & fo2 & Hcall2 & Htr2 & Hs2 & _).
  { rewrite Hrep. cbn. rewrite length_app. lia. }
  { rewrite Hrep, Hs1. cbn. rewrite Nat2Z.id, drop_app_length. exact HB. }
  rewrite Hrep in Hcall2, Htr2. cbn in Hcall2, Htr2.
  rewrite Nat2Z.id, drop_app_length in Htr2.
  rewrite Z.add_comm, Hint in Hcall2 by lia.
  exists st1, st2. split; [exact Hcall1|]. split; [exact Hcall2|].
  split; [exact Htr1|]. split; [exact Htr2|]. split; [|exact Hs2].
  rewrite Htr2, Htr1, !streamed_app, (streamed_writer_of _ _ _ _ _ _ _ Hw).
  cbn. rewrite !app_nil_r. by rewrite <- app_assoc.
Qed.

(** C4, as the code has it.  When the handle's byte count is below the
    request's offset, [Write] does not panic and passes nothing to the
    writer: it returns the error made by [fmt.Errorf] with the message
    about the gap, which is not a [fuse.Errno]; if the writer was not
    open and opening it failed, it returns that error instead. *)
Theorem Write_gap_error (h : nat) (request : WriteRequest) (st : world)
    (ho : handle) (fo : file) w err s0 pre :
  handles st !! h = Some ho →
  files st !! handle_f ho = Some fo →
  writer_of apiClient st ho fo = (w, err, s0, pre) →
  0 <= handle_written ho < 2 ^ 63 →
  0 <= WriteRequest_Offset request < 2 ^ 63 →
  handle_written ho - WriteRequest_Offset request < 0 →
  ∃ st',
    Write apiClient h request st
      = (Err (default (Errorf gap_message) err), st') ∧
    trace st' = (trace st ++ pre)%list ∧
    streamed (trace st') = streamed (trace st).
Proof.
  intros Hh Hf Hw Hwr Hoff Hgap.
  destruct (Write_gap h request st ho fo w err s0 pre Hh Hf Hw)
    as (st' & Hcall & Htr & _).
  { rewrite repeated_of_exact by done. lia. }
  exists st'. split; [exact Hcall|]. split; [exact Htr|].
  rewrite Htr, streamed_app, (streamed_writer_of _ _ _ _ _ _ _ Hw).
  apply app_nil_r.
Qed.

(** C10.  When the handle's byte count exceeds the request's offset by
    more than the length of the data, and the writer is open or opens
    without error, [Write] panics on [request.Data[repeated:]]. *)
Theorem Write_overlap_panics (h : nat) (request : WriteRequest) (st : world)
    (ho : handle) (fo : file) w s0 pre :
  handles st !! h = Some ho →
  files st !! handle_f ho = Some fo →
  writer_of apiClient st ho fo = (w, None, s0, pre) →
  0 <= handle_written ho < 2 ^ 63 →
  0 <= WriteRequest_Offset request < 2 ^ 63 →
  Z.of_nat (length (WriteRequest_Data request))
    < handle_written ho - WriteRequest_Offset request →
  (Write apiClient h request st).1 = Panic.
Proof.
  intros Hh Hf Hw Hwr Hoff Hover.
  apply (Write_overlap h request st ho fo w s0 pre Hh Hf Hw).
  by rewrite repeated_of_exact.
Qed.

(** Within the precondition, with a writer at hand, [Write] returns. *)
Lemma Write_returns (h : nat) (request : WriteRequest) (st : world)
    (ho : handle) (fo : file) w err s0 pre :
  handles st !! h = Some ho →
  files st !! handle_f ho = Some fo →
  writer_of apiClient st ho fo = (Some w, err, s0, pre) →
  0 <= handle_written ho < 2 ^ 63 →
  0 <= WriteRequest_Offset request < 2 ^ 63 →
  handle_written ho - WriteRequest_Offset request
    <= Z.of_nat (length (WriteRequest_Data request)) →
  (Write apiClient h request st).1 ≠ Panic.
Proof.
  intros Hh Hf Hw Hwr Hoff Hle.
  destruct (Z.lt_ge_cases (handle_written ho - WriteRequest_Offset request) 0)
    as [Hneg|Hpos].
  - destruct (Write_gap h request st ho fo _ _ _ _ Hh Hf Hw) as (st' & -> & _);
      [by rewrite repeated_of_exact|done].
  - destruct err as [e|].
    + unfold Write, writer_of in *. step. rewrite Hh. cbn. rewrite Hf. cbn.
      destruct (handle_w ho); [done|].
      destruct (PutFileWriter _ _ _ _ _ _) as [[w' [e'|]] s1]; done.
    + destruct (writer_Write apiClient w
                  (drop (Z.to_nat (repeated_of (handle_written ho) request))
                        (WriteRequest_Data request)) s0)
        as [[n [e|]] s1] eqn:Hwrite.
      * assert ((repeated_of (handle_written ho) request <? 0) = false) as Hge
          by (rewrite repeated_of_exact by done; apply Z.ltb_ge; lia).
        assert ((Z.of_nat (length (WriteRequest_Data request))
                 <? repeated_of (handle_written ho) request) = false) as Hin
          by (rewrite repeated_of_exact by done; apply Z.ltb_ge; lia).
        unfold Write, writer_of in *. step. rewrite Hh. cbn. rewrite Hf. cbn.
        destruct (handle_w ho) as [w0|].
        -- injection Hw as <- <- <-. cbn. rewrite Hge, Hin. cbn.
           by rewrite Hwrite.
        -- destruct (PutFileWriter _ _ _ _ _ _) as [[w' [e'|]] s2]; [done|].
           injection Hw as -> <- <-. cbn. rewrite Hge, Hin. cbn.
           by rewrite Hwrite.
      * destruct (Write_forward h request st ho fo w s0 pre n s1 Hh Hf Hw)
          as (st' & fo' & -> & _); [|exact Hwrite|done].
        rewrite repeated_of_exact by done. lia.
Qed.

(** ** Write-class operations on directories *)

Lemma Create_unpinned (d : directory) (name : string) (Flags : Z) (st : world) :
  dCommitID d = "" → Create path_Join d name Flags st = (Err EPERM, st).
Proof. intros Hid. unfold Create. by rewrite Hid. Qed.

Lemma Mkdir_unpinned (d : directory) (name : string) (st : world) :
  dCommitID d = "" → Mkdir apiClient path_Join d name st = (Err EPERM, st).
Proof. intros Hid. unfold Mkdir. by rewrite Hid. Qed.

(** With a commit id [Create] makes the local file and its handle and
    leaves the service alone, whatever [Node_Write] says. *)
Lemma Create_pinned (d : directory) (name : string) (Flags : Z) (st : world) :
  dCommitID d ≠ "" →
  Create path_Join d name Flags st
  = (Ok (length (files st), length (handles st),
         Z.lor Flags (Z.lor OpenDirectIO OpenNonSeekable)),
     set_files
       (files st ++
        [{| file_directory :=
              with_Path (path_Join (dPath (copy d)) name) (copy d);
            file_size := 0; file_local := true;
            file_handles := [length (handles st)] |}])
       (set_handles
          (handles st ++
           [{| handle_f := length (files st); handle_w := None;
               handle_written := 0 |}]) st)).
Proof.
  intros Hid. apply String.eqb_neq in Hid. unfold Create. rewrite Hid.
  unfold newHandle. step. cbn.
  rewrite lookup_app_r by done. rewrite Nat.sub_diag. cbn.
  unfold set_files, set_handles. cbn.
  rewrite insert_app_r_alt by done. rewrite Nat.sub_diag. done.
Qed.

Lemma Mkdir_pinned (d : directory) (name : string) (st : world) :
  dCommitID d ≠ "" →
  trace (Mkdir apiClient path_Join d name st).2
  = (trace st ++
     [CallMakeDirectory (dRepo d) (dCommitID d) (path_Join (dPath d) name)])%list.
Proof.
  intros Hid. apply String.eqb_neq in Hid. unfold Mkdir. rewrite Hid. step.
  destruct (MakeDirectory _ _ _ _ _) as [[e|] s']; done.
Qed.

Lemma Remove_calls (d : directory) (name : string) (st : world) :
  trace (Remove apiClient filepath_Join d name st).2
  = (trace st ++
     [CallDeleteFile (dRepo d) (dCommitID d) (filepath_Join (dPath d) name)])%list.
Proof.
  unfold Remove. step. destruct (DeleteFile _ _ _ _ _) as [[e|] s']; done.
Qed.

Lemma Write_opens (h : nat) (request : WriteRequest) (st : world)
    (ho : handle) (fo : file) :
  handles st !! h = Some ho →
  files st !! handle_f ho = Some fo →
  handle_w ho = None →
  ∃ rest,
    trace (Write apiClient h request st).2
    = (trace st ++
       CallPutFileWriter (dRepo (file_directory fo))
         (dCommitID (file_directory fo)) (dPath (file_directory fo))
         (handleID (directory_fs (file_directory fo))) :: rest)%list.
Proof.
  intros Hh Hf Hw. unfold Write. step. rewrite Hh. cbn. rewrite Hf. cbn.
  rewrite Hw.
  destruct (PutFileWriter _ _ _ _ _ _) as [[w' [e|]] s']; cbn; [by exists []|].
  destruct (_ <? 0); cbn; [by exists []|].
  destruct (_ <? _); cbn; [by exists []|].
  destruct w' as [w'|]; cbn; [|by exists []].
  destruct (writer_Write _ _ _ _) as [[n [e|]] s'']; cbn.
  - eexists. by rewrite <- app_assoc.
  - destruct (_ <? _); cbn; eexists; by rewrite <- app_assoc.
Qed.

(** C2, as the code has it.  The guard of the write-class operations is
    the commit id, not the writable flag.  On a directory without a
    commit id [Create] and [Mkdir] answer [EPERM] and nothing is sent to
    the service.  On a directory with a commit id, writable or not,
    [Create] succeeds locally and [Mkdir] calls [MakeDirectory].
    [Remove] always calls [DeleteFile], and a write on a handle whose
    writer is not open always calls [PutFileWriter]. *)
Theorem write_class_guards (d : directory) (name : string) (Flags : Z)
    (st : world) :
  (dCommitID d = "" →
     Create path_Join d name Flags st = (Err EPERM, st) ∧
     Mkdir apiClient path_Join d name st = (Err EPERM, st)) ∧
  (dCommitID d ≠ "" →
     (∃ f h st',
        Create path_Join d name Flags st
          = (Ok (f, h, Z.lor Flags (Z.lor OpenDirectIO OpenNonSeekable)), st') ∧
        trace st' = trace st ∧ server st' = server st) ∧
     trace (Mkdir apiClient path_Join d name st).2
       = (trace st ++
          [CallMakeDirectory (dRepo d) (dCommitID d)
             (path_Join (dPath d) name)])%list) ∧
  trace (Remove apiClient filepath_Join d name st).2
    = (trace st ++
       [CallDeleteFile (dRepo d) (dCommitID d)
          (filepath_Join (dPath d) name)])%list ∧
  (∀ h request ho fo,
     handles st !! h = Some ho →
     files st !! handle_f ho = Some fo →
     handle_w ho = None →
     ∃ rest,
       trace (Write apiClient h request st).2
       = (trace st ++
          CallPutFileWriter (dRepo (file_directory fo))
            (dCommitID (file_directory fo)) (dPath (file_directory fo))
            (handleID (directory_fs (file_directory fo))) :: rest)%list).
Proof.
  split; [|split; [|split]].
  - intros Hid. split; [by apply Create_unpinned|by apply Mkdir_unpinned].
  - intros Hid. split; [|by apply Mkdir_pinned].
    eexists _, _, _. split; [by apply Create_pinned|done].
  - apply Remove_calls.
  - intros h request ho fo. apply Write_opens.
Qed.

(** ** [Lookup] *)

(** C3, as the code has it.  In a writable directory with repository and
    commit fixed, [Lookup] makes a file node for the joined path with
    size 0 and no handles, whose [local] flag is false, and sends nothing
    to the service. *)
Theorem Lookup_writable (d : directory) (name : string) (st : world) :
  dRepo d ≠ "" → dCommitID d ≠ "" → Node_Write (directory_Node d) = true →
  ∃ f st',
    Lookup apiClient path_Join d name st = (Ok (FileNode f), st') ∧
    files st' !! f
      = Some {| file_directory :=
                  with_Path (path_Join (dPath d) name) (copy d);
                file_size := 0; file_local := false; file_handles := [] |} ∧
    trace st' = trace st ∧ server st' = server st.
Proof.
  intros Hrepo%String.eqb_neq Hid%String.eqb_neq Hw.
  unfold Lookup, lookUpFile. rewrite Hrepo, Hid, Hw. step. cbn.
  eexists _, _. split; [done|]. cbn.
  split; [|done]. rewrite lookup_app_r by done. by rewrite Nat.sub_diag.
Qed.

(** C6, as the code has it.  For a name that is neither the alias nor
    the repository name of any configured mount: when the list of mounts
    is not empty, [Lookup] at the root answers [EPERM] and sends nothing
    to the service; when it is empty, the name is taken for a repository
    and the answer is what [InspectRepo] decides, its error, or [ENOENT]
    when it reports no repository. *)
Theorem Lookup_root_unknown (f : filesystem) (name : string) (st : world) :
  Forall (λ m, CommitMount_Alias m ≠ name ∧ repoName m ≠ name)
         (CommitMounts f) →
  (CommitMounts f ≠ [] →
     Lookup apiClient path_Join (Root f) name st = (Err EPERM, st)) ∧
  (CommitMounts f = [] →
     ∀ repoInfo err s',
       InspectRepo apiClient name (server st) = ((repoInfo, err), s') →
       match err, repoInfo with
       | Some e, _ =>
           Lookup apiClient path_Join (Root f) name st
           = (Err e, set_server s' (CallInspectRepo name) st)
       | None, None =>
           Lookup apiClient path_Join (Root f) name st
           = (Err ENOENT, set_server s' (CallInspectRepo name) st)
       | None, Some _ => True
       end).
Proof.
  intros Hnone. split.
  - intros Hne.
    unfold Lookup, lookUpRepo. cbn.
    by rewrite (getCommitMount_unknown f name Hne Hnone).
  - intros Hnil repoInfo err s' Hinspect.
    unfold Lookup, lookUpRepo, getCommitMount. cbn. rewrite Hnil. cbn. step.
    rewrite Hinspect. by destruct err, repoInfo.
Qed.

(** ** Listing a commit directory *)

Lemma readFiles_loop_panics (dirPath : string) (fileInfos : list FileInfo)
    (result : list Dirent) (fileInfo : FileInfo) :
  fileInfo ∈ fileInfos →
  TrimPrefix (File_Path (FileInfo_File fileInfo)) dirPath = "" →
  readFiles_loop dirPath fileInfos result = Panic.
Proof.
  intros Hin. revert result.
  induction Hin as [fi l|fi fi' l _ IH]; intros result Hempty;
    cbn [readFiles_loop].
  - by rewrite Hempty.
  - destruct (TrimPrefix (File_Path (FileInfo_File fi')) dirPath); [done|].
    destruct (FileInfo_FileType fi'); by apply IH.
Qed.

Lemma readFiles_loop_returns (dirPath : string) (fileInfos : list FileInfo)
    (result : list Dirent) :
  Forall (λ fileInfo,
            TrimPrefix (File_Path (FileInfo_File fileInfo)) dirPath ≠ "")
         fileInfos →
  ∃ dirents, readFiles_loop dirPath fileInfos result = Ok dirents.
Proof.
  intros Hall. revert result.
  induction Hall as [|fi l Hfi _ IH]; intros result; cbn [readFiles_loop];
    [by eexists|].
  destruct (TrimPrefix _ dirPath); [done|].
  destruct (FileInfo_FileType fi); apply IH.
Qed.

Lemma ReadDirAll_pinned (d : directory) :
  dRepo d ≠ "" → dCommitID d ≠ "" →
  ReadDirAll apiClient d = readFiles apiClient d.
Proof.
  intros Hrepo%String.eqb_neq Hid%String.eqb_neq.
  unfold ReadDirAll. by rewrite Hrepo, Hid.
Qed.

(** C9.  Listing a directory with repository and commit fixed, when
    [ListFile] answers without error: if one of the entries has the
    directory's own path, the listing panics; if every entry's path is the
    directory's path followed by a non-empty rest, it returns the
    entries. *)
Theorem ReadDirAll_own_path (d : directory) (st : world)
    (fileInfos : list FileInfo) (s' : S) :
  dRepo d ≠ "" → dCommitID d ≠ "" →
  ListFile apiClient (dRepo d) (dCommitID d) (dPath d)
    (getFromCommitID (directory_fs d) (getRepoOrAliasName d))
    (Node_Shard (directory_Node d)) false (server st)
    = ((fileInfos, None), s') →
  ((∃ fileInfo, fileInfo ∈ fileInfos ∧
                File_Path (FileInfo_File fileInfo) = dPath d) →
     (ReadDirAll apiClient d st).1 = Panic) ∧
  ((∀ fileInfo, fileInfo ∈ fileInfos →
      ∃ rest, rest ≠ "" ∧
              File_Path (FileInfo_File fileInfo) = dPath d +:+ rest) →
     ∃ dirents, (ReadDirAll apiClient d st).1 = Ok dirents).
Proof.
  intros Hrepo Hid Hlist. rewrite ReadDirAll_pinned by done.
  unfold readFiles. step. rewrite Hlist. cbn. split.
  - intros (fileInfo & Hin & Hpath).
    apply (readFiles_loop_panics _ _ _ fileInfo Hin).
    rewrite Hpath. apply TrimPrefix_self.
  - intros Hbelow. apply readFiles_loop_returns.
    apply Forall_forall. intros fileInfo Hin.
    destruct (Hbelow fileInfo Hin) as (rest & Hrest & ->).
    by rewrite TrimPrefix_append.
Qed.

End Properties.

(** ** The operations run on the in-memory service *)

Module Runs.
Import InMemory.

(** Scenario S4: ["hello"], then ["helloworld"] at offset 0 again. *)
Lemma Write_duplicate_window_witness :
  ∃ st1 st2,
    Write api 0 (at_offset 0 hello) (opened 0) = (Ok 5, st1) ∧
    Write api 0 (at_offset 0 (hello ++ world_)) st1 = (Ok 10, st2) ∧
    trace st1 = [CallPutFileWriter "R" "c9" "log" "7b0a2c";
                 CallWrite 0%nat hello] ∧
    trace st2 = (trace st1 ++ [CallWrite 0%nat world_])%list ∧
    streamed (trace st2) = String.list_byte_of_string "helloworld" ∧
    server st2 = [String.list_byte_of_string "helloworld"].
Proof.
  apply (Write_duplicate_window api 0 hello world_ (opened 0)
           {| handle_f := 0%nat; handle_w := None; handle_written := 0 |}
           {| file_directory := dir (mounting []) "R" "c9" "log" true;
              file_size := 0; file_local := true; file_handles := [0%nat] |}
           0%nat [CallPutFileWriter "R" "c9" "log" "7b0a2c"]
           [[]] [hello] [String.list_byte_of_string "helloworld"]);
    reflexivity.
Defined.

(** C4 as stated fails: the error for a gap is the one made by
    [fmt.Errorf], not [EINVAL]. *)
Lemma Write_gap_is_not_EINVAL :
  (Write api 0 (at_offset 1 []) (opened 0)).1 = Err (Errorf gap_message) ∧
  (Write api 0 (at_offset 1 []) (opened 0)).1 ≠ Err EINVAL.
Proof. split; [reflexivity|discriminate]. Qed.

Lemma Write_gap_error_witness :
  ∃ st',
    Write api 0 (at_offset 1 []) (opened 0) = (Err (Errorf gap_message), st') ∧
    trace st' = [CallPutFileWriter "R" "c9" "log" "7b0a2c"] ∧
    streamed (trace st') = [].
Proof.
  apply (Write_gap_error api 0 (at_offset 1 []) (opened 0)
           {| handle_f := 0%nat; handle_w := None; handle_written := 0 |}
           {| file_directory := dir (mounting []) "R" "c9" "log" true;
              file_size := 0; file_local := true; file_handles := [0%nat] |}
           (Some 0%nat) None [[]] [CallPutFileWriter "R" "c9" "log" "7b0a2c"]);
    first [reflexivity | simpl; lia].
Defined.

(** Five bytes written, then three bytes sent again from offset 0. *)
Lemma Write_overlap_panics_witness :
  (Write api 0 (at_offset 0 (String.list_byte_of_string "hel")) (opened 5)).1
  = Panic.
Proof.
  apply (Write_overlap_panics api 0
           (at_offset 0 (String.list_byte_of_string "hel")) (opened 5)
           {| handle_f := 0%nat; handle_w := None; handle_written := 5 |}
           {| file_directory := dir (mounting []) "R" "c9" "log" true;
              file_size := 0; file_local := true; file_handles := [0%nat] |}
           (Some 0%nat) [[]] [CallPutFileWriter "R" "c9" "log" "7b0a2c"]);
    first [reflexivity | simpl; lia].
Defined.

Lemma Read_GetFile_error_witness :
  (grpc_Code (RpcError codes_NotFound "file not found") = codes_NotFound →
     (Read api 0 {| ReadRequest_Offset := 0; ReadRequest_Size := 1024 |}
           (opened 0)).1 = Err EINVAL) ∧
  (grpc_Code (RpcError codes_NotFound "file not found") ≠ codes_NotFound →
     (Read api 0 {| ReadRequest_Offset := 0; ReadRequest_Size := 1024 |}
           (opened 0)).1 = Err (RpcError codes_NotFound "file not found")).
Proof.
  apply (Read_GetFile_error api 0
           {| ReadRequest_Offset := 0; ReadRequest_Size := 1024 |} (opened 0)
           {| handle_f := 0%nat; handle_w := None; handle_written := 0 |}
           {| file_directory := dir (mounting []) "R" "c9" "log" true;
              file_size := 0; file_local := true; file_handles := [0%nat] |}
           [] (RpcError codes_NotFound "file not found") []);
    reflexivity.
Defined.

(** Reading a file of the open commit that the service does not have,
    and reading while the service is unavailable. *)
Example Read_open_commit :
  (Read api 0 {| ReadRequest_Offset := 0; ReadRequest_Size := 1024 |}
        (opened 0)).1 = Err EINVAL.
Proof. reflexivity. Qed.

Example Read_unavailable :
  (Read api 0 {| ReadRequest_Offset := 0; ReadRequest_Size := 1024 |}
        reading).1 = Err (RpcError 14 "unavailable").
Proof. reflexivity. Qed.

(** C2 as stated fails: in a directory of a finished commit, not
    writable, [Create] succeeds and [Remove] reaches the service. *)
Lemma finished_commit_not_guarded :
  Node_Write (directory_Node (finished "")) = false ∧
  (Create join (finished "") "f" 0 boot).1 = Ok (0%nat, 0%nat, 5) ∧
  (Remove api join (finished "") "f" boot).1 = Ok () ∧
  trace (Remove api join (finished "") "f" boot).2
    = [CallDeleteFile "R" "c1" "f"].
Proof. repeat split; reflexivity. Qed.

(** C3 as stated fails: the file made by a lookup in a writable directory
    has [local = false]. *)
Lemma Lookup_writable_not_local :
  (Lookup api join (open "") "x" boot).1 = Ok (FileNode 0) ∧
  file_local <$> files (Lookup api join (open "") "x" boot).2 !! 0%nat
    = Some false.
Proof. split; reflexivity. Qed.

Lemma Lookup_writable_witness :
  ∃ f st',
    Lookup api join (open "") "x" boot = (Ok (FileNode f), st') ∧
    files st' !! f
      = Some {| file_directory := open "x";
                file_size := 0; file_local := false; file_handles := [] |} ∧
    trace st' = [] ∧ server st' = [].
Proof.
  apply (Lookup_writable api join (open "") "x" boot);
    first [reflexivity | discriminate].
Defined.

(** C6 as stated fails: with no mounts configured, a name the service
    does not know is answered with the service's own error, or with
    [ENOENT] when the service reports no repository. *)
Lemma Lookup_root_unmounted :
  (Lookup api join (Root (mounting [])) "Q" boot).1
    = Err (RpcError codes_NotFound "repo not found") ∧
  (Lookup api join (Root (mounting [])) "ghost" boot).1 = Err ENOENT.
Proof. split; reflexivity. Qed.

Lemma Lookup_root_unknown_witness :
  (CommitMounts aliased ≠ [] →
     Lookup api join (Root aliased) "Q" boot = (Err EPERM, boot)) ∧
  (CommitMounts aliased = [] →
     ∀ repoInfo err s',
       InspectRepo api "Q" (server boot) = ((repoInfo, err), s') →
       match err, repoInfo with
       | Some e, _ =>
           Lookup api join (Root aliased) "Q" boot
           = (Err e, set_server s' (CallInspectRepo "Q") boot)
       | None, None =>
           Lookup api join (Root aliased) "Q" boot
           = (Err ENOENT, set_server s' (CallInspectRepo "Q") boot)
       | None, Some _ => True
       end).
Proof.
  apply (Lookup_root_unknown api join aliased "Q" boot).
  repeat constructor; discriminate.
Defined.

Lemma ReadDirAll_own_path_witness :
  ((∃ fileInfo, fileInfo ∈ [entry "self" FILE_TYPE_DIR] ∧
                File_Path (FileInfo_File fileInfo) = dPath (finished "self")) →
     (ReadDirAll api (finished "self") boot).1 = Panic) ∧
  ((∀ fileInfo, fileInfo ∈ [entry "self" FILE_TYPE_DIR] →
      ∃ rest, rest ≠ "" ∧
              File_Path (FileInfo_File fileInfo)
              = dPath (finished "self") +:+ rest) →
     ∃ dirents, (ReadDirAll api (finished "self") boot).1 = Ok dirents).
Proof.
  apply (ReadDirAll_own_path api (finished "self") boot
           [entry "self" FILE_TYPE_DIR] []);
    first [reflexivity | discriminate].
Defined.

Example ReadDirAll_self : (ReadDirAll api (finished "self") boot).1 = Panic.
Proof. reflexivity. Qed.

Example ReadDirAll_below :
  (ReadDirAll api (finished "d") boot).1
  = Ok [{| Dirent_Name := "a"; Dirent_Type := DT_File |};
        {| Dirent_Name := "sub"; Dirent_Type := DT_Dir |}].
Proof. reflexivity. Qed.

End Runs.

(** * Further properties of the handle operations *)

Section Handles.

Context {S W : Type} (apiClient : @APIClient S W).

Abbreviation world := (@world S W).
Abbreviation call := (@call W).

Ltac step :=
  unfold mbind, M_bind, mret, M_ret, fail, panic, rpc,
    get_handle, get_file, put_handle, put_file, new_file, new_handle.

Lemma Flush_open (h : nat) (st : world) (ho : handle) (w : W) :
  handles st !! h = Some ho → handle_w ho = Some w →
  Flush apiClient h st
  = (match (writer_Close apiClient w (server st)).1 with
     | Some e => Err e
     | None => Ok ()
     end,
     set_server (writer_Close apiClient w (server st)).2 (CallClose w)
       (set_handles (<[h := detached ho]> (handles st)) st)).
Proof.
  intros Hh Hw. unfold Flush. step. rewrite Hh. cbn. rewrite Hw. cbn.
  by destruct (writer_Close apiClient w (server st)) as [[e|] s'].
Qed.

Lemma Flush_closed (h : nat) (st : world) (ho : handle) :
  handles st !! h = Some ho → handle_w ho = None →
  Flush apiClient h st = (Ok (), st).
Proof.
  intros Hh Hw. unfold Flush. step. rewrite Hh. cbn. by rewrite Hw.
Qed.

(** X1.  [Flush] on a handle with an open writer calls [Close] on that
    writer once and returns what [Close] returns; whether [Close] fails
    or not, the handle is left without a writer, its byte count is kept,
    and no other handle and no file is touched. *)
Theorem Flush_detaches (h : nat) (st : world) (ho : handle) (w : W)
    (err : option error) (s' : S) :
  handles st !! h = Some ho →
  handle_w ho = Some w →
  writer_Close apiClient w (server st) = (err, s') →
  ∃ st',
    Flush apiClient h st
      = (match err with Some e => Err e | None => Ok () end, st') ∧
    trace st' = (trace st ++ [CallClose w])%list ∧
    server st' = s' ∧
    handles st' !! h = Some (detached ho) ∧
    (∀ h', h' ≠ h → handles st' !! h' = handles st !! h') ∧
    files st' = files st.
Proof.
  intros Hh Hw Hclose. rewrite (Flush_open h st ho w Hh Hw), Hclose.
  eexists. split; [reflexivity|]. cbn.
  split; [done|]. split; [done|].
  split; [apply list_lookup_insert_eq; by eapply lookup_lt_Some|].
  split; [|done]. intros h' Hne. by apply list_lookup_insert_ne.
Qed.

(** X2.  After a [Flush], whatever it returned, a second [Flush] of the
    same handle returns without error and changes nothing: the writer is
    closed once. *)
Theorem Flush_again (h : nat) (st : world) (ho : handle) :
  handles st !! h = Some ho →
  Flush apiClient h (Flush apiClient h st).2
  = (Ok (), (Flush apiClient h st).2).
Proof.
  intros Hh. destruct (handle_w ho) as [w|] eqn:Hw.
  - rewrite (Flush_open h st ho w Hh Hw). cbn.
    apply (Flush_closed h _ (detached ho)); [|done]. cbn.
    apply list_lookup_insert_eq. by eapply lookup_lt_Some.
  - rewrite (Flush_closed h st ho Hh Hw). cbn. by apply (Flush_closed h st ho).
Qed.

(** ** [Write]: the state it leaves *)

Lemma Write_effect (h : nat) (request : WriteRequest) (st : world)
    (ho : handle) (fo : file) w s0 pre n s1 :
  handles st !! h = Some ho →
  files st !! handle_f ho = Some fo →
  writer_of apiClient st ho fo = (Some w, None, s0, pre) →
  let r := repeated_of (handle_written ho) request in
  let rest := drop (Z.to_nat r) (WriteRequest_Data request) in
  0 <= r <= Z.of_nat (length (WriteRequest_Data request)) →
  writer_Write apiClient w rest s0 = ((n, None), s1) →
  Write apiClient h request st
  = (Ok (int (n + r)),
     {| server := s1;
        trace := trace st ++ pre ++ [CallWrite w rest];
        inodes := inodes st;
        files := <[handle_f ho :=
                     grown fo (WriteRequest_Offset request) n]> (files st);
        handles := <[h := {| handle_f := handle_f ho; handle_w := Some w;
                            handle_written := int (handle_written ho + n) |}]>
                     (handles st) |}).
Proof.
  intros Hh Hf Hw r rest Hr Hwrite.
  assert ((r <? 0) = false) as Hge by (apply Z.ltb_ge; lia).
  assert ((Z.of_nat (length (WriteRequest_Data request)) <? r) = false) as Hle
    by (apply Z.ltb_ge; lia).
  assert (∀ l : list file,
            l !! handle_f ho = Some fo →
            (if file_size fo <? int64 (WriteRequest_Offset request + int64 n)
             then <[handle_f ho :=
                      {| file_directory := file_directory fo;
                         file_size := int64 (WriteRequest_Offset request + int64 n);
                         file_local := file_local fo;
                         file_handles := file_handles fo |}]> l
             else l)
            = <[handle_f ho := grown fo (WriteRequest_Offset request) n]> l)
    as Hfiles.
  { intros l Hl. unfold grown. destruct (Z.ltb_spec (file_size fo)
      (int64 (WriteRequest_Offset request + int64 n))) as [Hlt|Hge'].
    - by rewrite Z.max_r by lia.
    - rewrite Z.max_l by lia. symmetry. apply list_insert_id.
      by destruct fo. }
  unfold Write, writer_of in *. step. rewrite Hh. cbn. rewrite Hf. cbn.
  fold r. fold rest.
  destruct (handle_w ho) as [w0|].
  - injection Hw as <- <- <-. cbn. rewrite Hge, Hle. cbn. rewrite Hwrite. cbn.
    rewrite <- (Hfiles _ Hf).
    destruct (file_size fo <? _); unfold set_files, set_handles, set_server;
      cbn; by rewrite ?app_nil_r.
  - destruct (PutFileWriter _ _ _ _ _ _) as [[w' [e|]] s2]; [done|].
    injection Hw as -> <- <-. cbn. rewrite Hge, Hle. cbn. rewrite Hwrite. cbn.
    rewrite <- (Hfiles _ Hf).
    destruct (file_size fo <? _); unfold set_files, set_handles, set_server;
      cbn; by rewrite list_insert_insert_eq, <- app_assoc.
Qed.

Lemma in_range_int (z : Z) : 0 <= z < 2 ^ 63 → int z = z.
Proof. intros Hz. apply int_id. unfold in_int64. lia. Qed.

Lemma in_range_int64 (z : Z) : 0 <= z < 2 ^ 63 → int64 z = z.
Proof. intros Hz. apply int64_id. unfold in_int64. lia. Qed.

(** X3.  A write whose offset lies inside what the handle has already
    written, up to the end of it, and whose remainder the writer takes
    whole: the kernel is credited with the whole slice
    ([response.Size = len(data)]), the handle's count becomes the end
    offset of the request, and the file size becomes the larger of its old
    value and [offset] plus the number of bytes forwarded, which leaves
    the repeated bytes out. *)
Theorem Write_accounting (h : nat) (request : WriteRequest) (st : world)
    (ho : handle) (fo : file) (w : W) (pre : list call) (s0 s1 : S) :
  handles st !! h = Some ho →
  files st !! handle_f ho = Some fo →
  writer_of apiClient st ho fo = (Some w, None, s0, pre) →
  let offset := WriteRequest_Offset request in
  let data := WriteRequest_Data request in
  let repeated := handle_written ho - offset in
  0 <= offset →
  offset + Z.of_nat (length data) < 2 ^ 63 →
  0 <= repeated <= Z.of_nat (length data) →
  writer_Write apiClient w (drop (Z.to_nat repeated) data) s0
    = ((Z.of_nat (length data) - repeated, None), s1) →
  ∃ st',
    Write apiClient h request st = (Ok (Z.of_nat (length data)), st') ∧
    handles st' !! h
      = Some {| handle_f := handle_f ho; handle_w := Some w;
                handle_written := offset + Z.of_nat (length data) |} ∧
    files st' !! handle_f ho
      = Some {| file_directory := file_directory fo;
                file_size :=
                  Z.max (file_size fo)
                        (offset + (Z.of_nat (length data) - repeated));
                file_local := file_local fo;
                file_handles := file_handles fo |} ∧
    streamed (trace st')
      = (streamed (trace st) ++ drop (Z.to_nat repeated) data)%list.
Proof.
  intros Hh Hf Hw offset data repeated Hoff Hend Hrep Hwrite.
  assert (repeated_of (handle_written ho) request = repeated) as Hr.
  { apply repeated_of_exact; fold offset; unfold repeated in Hrep; lia. }
  pose proof (Write_effect h request st ho fo w s0 pre
                (Z.of_nat (length data) - repeated) s1 Hh Hf Hw) as Heff.
  cbn zeta in Heff. rewrite Hr in Heff. fold data in Heff.
  rewrite (Heff Hrep Hwrite). clear Heff.
  replace (Z.of_nat (length data) - repeated + repeated)
    with (Z.of_nat (length data)) by lia.
  rewrite (in_range_int (Z.of_nat (length data))) by lia.
  eexists. split; [reflexivity|].
  cbn. split; [|split].
  - rewrite list_lookup_insert_eq by (by eapply lookup_lt_Some).
    do 2 f_equal. unfold repeated. rewrite in_range_int by lia. lia.
  - rewrite list_lookup_insert_eq by (by eapply lookup_lt_Some).
    unfold grown. fold offset.
    rewrite (in_range_int64 (_ - _)) by lia.
    by rewrite in_range_int64 by lia.
  - rewrite !streamed_app, (streamed_writer_of _ _ _ _ _ _ _ _ Hw). cbn.
    by rewrite app_nil_r.
Qed.

Lemma streamed_CallWrite (w : W) (chunks : list (list Byte.byte)) :
  streamed (map (CallWrite w) chunks) = concat chunks.
Proof. induction chunks as [|c cs IH]; cbn; [done|]. by rewrite IH. Qed.

Lemma Writes_open (w : W) (chunks : list (list Byte.byte)) :
  takes_all apiClient w →
  ∀ (h : nat) (st : world) (ho : handle) (fo : file),
  handles st !! h = Some ho →
  handle_w ho = Some w →
  files st !! handle_f ho = Some fo →
  0 <= handle_written ho →
  handle_written ho + Z.of_nat (length (concat chunks)) < 2 ^ 63 →
  ∃ st',
    Writes apiClient h (handle_written ho) chunks st
      = (Ok (map (λ c, Z.of_nat (length c)) chunks), st') ∧
    trace st' = (trace st ++ map (CallWrite w) chunks)%list ∧
    handles st' !! h
      = Some {| handle_f := handle_f ho; handle_w := Some w;
                handle_written :=
                  handle_written ho + Z.of_nat (length (concat chunks)) |}.
Proof.
  intros Htakes. induction chunks as [|c cs IH]; intros h st ho fo Hh Hw Hf H0 Hend.
  - exists st. cbn. split; [done|]. split; [by rewrite app_nil_r|].
    rewrite Z.add_0_r. by destruct ho; cbn in *; subst.
  - cbn [concat] in Hend. rewrite length_app in Hend.
    destruct (Htakes c (server st)) as [s1 Hwrite].
    set (request := {| WriteRequest_Offset := handle_written ho;
                       WriteRequest_Data := c |}).
    assert (repeated_of (handle_written ho) request = 0) as Hr.
    { rewrite repeated_of_exact; cbn; lia. }
    pose proof (Write_effect h request st ho fo w (server st) []
                  (Z.of_nat (length c)) s1 Hh Hf) as Heff.
    cbn zeta in Heff. rewrite Hr in Heff.
    specialize (Heff ltac:(unfold writer_of; by rewrite Hw)
                     ltac:(cbn; lia) Hwrite).
    rewrite Z.add_0_r, in_range_int in Heff by lia.
    rewrite (in_range_int (_ + _)) in Heff by lia.
    cbn [Writes]. unfold mbind at 1, M_bind at 1. fold request. rewrite Heff.
    set (ho1 := {| handle_f := handle_f ho; handle_w := Some w;
                   handle_written := handle_written ho + Z.of_nat (length c) |}).
    match goal with |- ∃ _, (_ ≫= _) ?x = _ ∧ _ => set (st1' := x) end.
    destruct (IH h st1' ho1 (grown fo (handle_written ho) (Z.of_nat (length c))))
      as (st' & Hrun & Htr & Hh').
    + cbn. apply list_lookup_insert_eq. by eapply lookup_lt_Some.
    + done.
    + cbn. apply list_lookup_insert_eq. by eapply lookup_lt_Some.
    + cbn. lia.
    + cbn. lia.
    + exists st'. cbn [handle_written ho1] in Hrun.
      unfold mbind, M_bind. rewrite Hrun. cbn.
      split; [done|]. split.
      * rewrite Htr. cbn. by rewrite <- app_assoc.
      * rewrite Hh'. cbn. do 2 f_equal. rewrite length_app. lia.
Qed.

(** X4.  Chunks written one after the other, each at the offset where the
    one before ended, on a handle whose writer is open or opens without
    error and takes what it is given: every call is credited with its
    whole chunk, the writer receives the chunks in order and nothing
    else, so the service has received their concatenation, and the
    handle's count has grown by the total length. *)
Theorem Writes_stream (h : nat) (c : list Byte.byte)
    (cs : list (list Byte.byte)) (st : world) (ho : handle) (fo : file)
    (w : W) (pre : list call) (s0 : S) :
  handles st !! h = Some ho →
  files st !! handle_f ho = Some fo →
  writer_of apiClient st ho fo = (Some w, None, s0, pre) →
  takes_all apiClient w →
  0 <= handle_written ho →
  handle_written ho + Z.of_nat (length (concat (c :: cs))) < 2 ^ 63 →
  ∃ st',
    Writes apiClient h (handle_written ho) (c :: cs) st
      = (Ok (map (λ c, Z.of_nat (length c)) (c :: cs)), st') ∧
    trace st' = (trace st ++ pre ++ map (CallWrite w) (c :: cs))%list ∧
    streamed (trace st') = (streamed (trace st) ++ concat (c :: cs))%list ∧
    handles st' !! h
      = Some {| handle_f := handle_f ho; handle_w := Some w;
                handle_written :=
                  handle_written ho + Z.of_nat (length (concat (c :: cs))) |}.
Proof.
  intros Hh Hf Hw Htakes H0 Hend.
  cbn [concat] in Hend. rewrite length_app in Hend.
  destruct (Htakes c s0) as [s1 Hwrite].
  set (request := {| WriteRequest_Offset := handle_written ho;
                     WriteRequest_Data := c |}).
  assert (repeated_of (handle_written ho) request = 0) as Hr.
  { rewrite repeated_of_exact; cbn; lia. }
  pose proof (Write_effect h request st ho fo w s0 pre
                (Z.of_nat (length c)) s1 Hh Hf Hw) as Heff.
  cbn zeta in Heff. rewrite Hr in Heff.
  specialize (Heff ltac:(cbn; lia) Hwrite).
  rewrite Z.add_0_r, in_range_int in Heff by lia.
  rewrite (in_range_int (_ + _)) in Heff by lia.
  cbn [Writes]. unfold mbind at 1, M_bind at 1. fold request. rewrite Heff.
  set (ho1 := {| handle_f := handle_f ho; handle_w := Some w;
                 handle_written := handle_written ho + Z.of_nat (length c) |}).
  match goal with |- ∃ _, (_ ≫= _) ?x = _ ∧ _ => set (st1 := x) end.
  destruct (Writes_open w cs Htakes h st1 ho1
              (grown fo (handle_written ho) (Z.of_nat (length c))))
    as (st' & Hrun & Htr & Hh').
  - cbn. apply list_lookup_insert_eq. by eapply lookup_lt_Some.
  - done.
  - cbn. apply list_lookup_insert_eq. by eapply lookup_lt_Some.
  - cbn. lia.
  - cbn. lia.
  - exists st'. cbn [handle_written ho1] in Hrun.
    unfold mbind, M_bind. rewrite Hrun. cbn.
    assert (trace st'
            = (trace st ++ pre ++ CallWrite w c :: map (CallWrite w) cs)%list)
      as Htr'.
    { rewrite Htr. cbn. by rewrite <- !app_assoc. }
    split; [done|]. split; [exact Htr'|]. split.
    + rewrite Htr', !streamed_app, (streamed_writer_of _ _ _ _ _ _ _ _ Hw).
      cbn. by rewrite streamed_CallWrite.
    + rewrite Hh'. cbn. do 2 f_equal. rewrite length_app. lia.
Qed.

(** X5.  A handle in the middle of a stream is flushed and then written
    to at the offset it had reached.  Whatever [Close] returned, the
    write asks [PutFileWriter] for a new writer, hands it the whole data,
    and the handle's count goes on from where it was. *)
Theorem Write_after_Flush (h : nat) (request : WriteRequest) (st : world)
    (ho : handle) (fo : file) (w1 w2 : W) (err : option error)
    (s1 s2 s3 : S) :
  handles st !! h = Some ho →
  files st !! handle_f ho = Some fo →
  handle_w ho = Some w1 →
  WriteRequest_Offset request = handle_written ho →
  0 <= handle_written ho →
  handle_written ho + Z.of_nat (length (WriteRequest_Data request)) < 2 ^ 63 →
  writer_Close apiClient w1 (server st) = (err, s1) →
  PutFileWriter apiClient (dRepo (file_directory fo))
    (dCommitID (file_directory fo)) (dPath (file_directory fo))
    (handleID (directory_fs (file_directory fo))) s1
    = ((Some w2, None), s2) →
  writer_Write apiClient w2 (WriteRequest_Data request) s2
    = ((Z.of_nat (length (WriteRequest_Data request)), None), s3) →
  ∃ st',
    Write apiClient h request (Flush apiClient h st).2
      = (Ok (Z.of_nat (length (WriteRequest_Data request))), st') ∧
    trace st'
      = (trace st ++
         [CallClose w1;
          CallPutFileWriter (dRepo (file_directory fo))
            (dCommitID (file_directory fo)) (dPath (file_directory fo))
            (handleID (directory_fs (file_directory fo)));
          CallWrite w2 (WriteRequest_Data request)])%list ∧
    handles st' !! h
      = Some {| handle_f := handle_f ho; handle_w := Some w2;
                handle_written :=
                  handle_written ho
                  + Z.of_nat (length (WriteRequest_Data request)) |}.
Proof.
  intros Hh Hf Hw Hoff H0 Hend Hclose Hput Hwrite.
  rewrite (Flush_open h st ho w1 Hh Hw), Hclose. cbn [snd fst].
  match goal with |- ∃ _, Write _ _ _ ?x = _ ∧ _ => set (st1 := x) end.
  assert (handles st1 !! h = Some (detached ho)) as Hh1.
  { cbn. apply list_lookup_insert_eq. by eapply lookup_lt_Some. }
  assert (repeated_of (handle_written (detached ho)) request = 0) as Hr.
  { rewrite repeated_of_exact; cbn; lia. }
  pose proof (Write_effect h request st1 (detached ho) fo w2 s2
                [CallPutFileWriter (dRepo (file_directory fo))
                   (dCommitID (file_directory fo)) (dPath (file_directory fo))
                   (handleID (directory_fs (file_directory fo)))]
                (Z.of_nat (length (WriteRequest_Data request))) s3 Hh1 Hf)
    as Heff.
  cbn zeta in Heff. rewrite Hr in Heff.
  specialize (Heff ltac:(unfold writer_of; cbn; by rewrite Hput)
                   ltac:(lia) Hwrite).
  rewrite Z.add_0_r, in_range_int in Heff by lia.
  cbn [handle_written handle_f detached] in Heff.
  rewrite (in_range_int (_ + _)) in Heff by lia.
  rewrite Heff. eexists. split; [reflexivity|]. cbn. split.
  - by rewrite <- app_assoc.
  - apply list_lookup_insert_eq. rewrite length_insert. by eapply lookup_lt_Some.
Qed.

(** ** [Fsync] *)

Lemma detached_closed (ho : @handle W) : handle_w ho = None → detached ho = ho.
Proof. destruct ho as [f w n]. cbn. by intros ->. Qed.

Lemma Fsync_loop_closes (hs : list nat) :
  closes apiClient →
  ∀ st : world,
  (∀ h, h ∈ hs → is_Some (handles st !! h)) →
  ∃ st',
    Fsync_loop apiClient hs st = (Ok (), st') ∧
    files st' = files st ∧
    streamed (trace st') = streamed (trace st) ∧
    (∀ h ho, handles st !! h = Some ho →
       handles st' !! h = Some (if decide (h ∈ hs) then detached ho else ho)).
Proof.
  intros Hcloses. induction hs as [|h0 hs IH]; intros st Hvalid.
  - exists st. split; [done|]. split; [done|]. split; [done|].
    intros h ho Hh. rewrite decide_False; [done|]. by intros ?%elem_of_nil.
  - destruct (Hvalid h0 ltac:(by left)) as [ho0 Hh0].
    cbn [Fsync_loop]. unfold mbind at 1, M_bind at 1.
    assert (∃ st1,
              Flush apiClient h0 st = (Ok (), st1) ∧
              files st1 = files st ∧
              streamed (trace st1) = streamed (trace st) ∧
              handles st1 = <[h0 := detached ho0]> (handles st))
      as (st1 & -> & Hf1 & Hs1 & Hh1).
    { destruct (handle_w ho0) as [w|] eqn:Hw.
      - rewrite (Flush_open h0 st ho0 w Hh0 Hw), (Hcloses w (server st)).
        eexists. split; [reflexivity|]. cbn.
        split; [done|]. split; [|done].
        rewrite streamed_app. cbn. by rewrite app_nil_r.
      - rewrite (Flush_closed h0 st ho0 Hh0 Hw).
        exists st. repeat split; try done.
        symmetry. apply list_insert_id. by rewrite detached_closed. }
    destruct (IH st1) as (st' & Hrun & Hf' & Hs' & Hh').
    { intros h Hin. rewrite Hh1. apply list_lookup_insert_is_Some.
      apply Hvalid. by right. }
    exists st'. split; [exact Hrun|]. split; [congruence|].
    split; [congruence|].
    intros h ho Hh. destruct (decide (h = h0)) as [->|Hne].
    + assert (ho = ho0) as -> by congruence.
      rewrite (Hh' h0 (detached ho0)).
      * rewrite (decide_True (P := h0 ∈ h0 :: hs)) by (by left).
        by destruct (decide (h0 ∈ hs)).
      * rewrite Hh1. apply list_lookup_insert_eq. by eapply lookup_lt_Some.
    + rewrite (Hh' h ho) by (by rewrite Hh1, list_lookup_insert_ne).
      destruct (decide (h ∈ hs)) as [Hin|Hnin].
      * by rewrite decide_True by (by right).
      * rewrite decide_False; [done|]. by intros [->|?]%elem_of_cons.
Qed.

(** X6.  [Fsync], when every handle of the file is a live handle and
    every [Close] succeeds: it returns without error, every handle of the
    file is left without a writer, every handle keeps its file and its
    byte count, handles of other files keep their writers, and no bytes
    are sent. *)
Theorem Fsync_closes_all (f : nat) (st : world) (fo : file) :
  closes apiClient →
  files st !! f = Some fo →
  (∀ h, h ∈ file_handles fo → is_Some (handles st !! h)) →
  ∃ st',
    Fsync apiClient f st = (Ok (), st') ∧
    files st' = files st ∧
    streamed (trace st') = streamed (trace st) ∧
    (∀ h ho, handles st !! h = Some ho →
       ∃ ho',
         handles st' !! h = Some ho' ∧
         handle_f ho' = handle_f ho ∧
         handle_written ho' = handle_written ho ∧
         (h ∈ file_handles fo → handle_w ho' = None) ∧
         (h ∉ file_handles fo → ho' = ho)).
Proof.
  intros Hcloses Hf Hvalid.
  destruct (Fsync_loop_closes (file_handles fo) Hcloses st Hvalid)
    as (st' & Hrun & Hf' & Hs' & Hh').
  exists st'. unfold Fsync. step. rewrite Hf. cbn.
  split; [exact Hrun|]. split; [done|]. split; [done|].
  intros h ho Hh. rewrite (Hh' h ho Hh).
  destruct (decide (h ∈ file_handles fo)); eexists; (split; [reflexivity|]);
    repeat split; try done.
Qed.



End Handles.

(** * The handle store *)

Section Store.

Context {S W : Type} (apiClient : @APIClient S W).
Variables path_Join filepath_Join : string → string → string.

Abbreviation world := (@world S W).

Ltac step :=
  unfold mbind, M_bind, mret, M_ret, fail, panic, rpc, inode_of,
    get_handle, get_file, put_handle, put_file, new_file, new_handle.

(** [store_ok] sees only which file each handle points to and which
    handles each file lists. *)
Lemma store_ok_links (st st' : world) :
  handle_f <$> handles st' = handle_f <$> handles st →
  file_handles <$> files st' = file_handles <$> files st →
  store_ok st → store_ok st'.
Proof.
  intros Hh Hf [Hok1 Hok2].
  assert (∀ h ho', handles st' !! h = Some ho' →
            ∃ ho, handles st !! h = Some ho ∧ handle_f ho = handle_f ho') as Hback.
  { intros h ho' Hl.
    assert ((handle_f <$> handles st) !! h = Some (handle_f ho')) as Hl'
      by (by rewrite <- Hh, list_lookup_fmap, Hl).
    rewrite list_lookup_fmap in Hl'.
    destruct (handles st !! h) as [ho|]; [|done]. exists ho. by inversion Hl'. }
  assert (∀ f fo', files st' !! f = Some fo' →
            ∃ fo, files st !! f = Some fo ∧ file_handles fo = file_handles fo') as Hfback.
  { intros f fo' Hl.
    assert ((file_handles <$> files st) !! f = Some (file_handles fo')) as Hl'
      by (by rewrite <- Hf, list_lookup_fmap, Hl).
    rewrite list_lookup_fmap in Hl'.
    destruct (files st !! f) as [fo|]; [|done]. exists fo. by inversion Hl'. }
  assert (∀ h ho, handles st !! h = Some ho →
            ∃ ho', handles st' !! h = Some ho' ∧ handle_f ho' = handle_f ho) as Hforth.
  { intros h ho Hl.
    assert ((handle_f <$> handles st') !! h = Some (handle_f ho)) as Hl'
      by (by rewrite Hh, list_lookup_fmap, Hl).
    rewrite list_lookup_fmap in Hl'.
    destruct (handles st' !! h) as [ho'|]; [|done]. exists ho'. by inversion Hl'. }
  assert (∀ f fo, files st !! f = Some fo →
            ∃ fo', files st' !! f = Some fo' ∧ file_handles fo' = file_handles fo) as Hfforth.
  { intros f fo Hl.
    assert ((file_handles <$> files st') !! f = Some (file_handles fo)) as Hl'
      by (by rewrite Hf, list_lookup_fmap, Hl).
    rewrite list_lookup_fmap in Hl'.
    destruct (files st' !! f) as [fo'|]; [|done]. exists fo'. by inversion Hl'. }
  split.
  - intros h ho' Hl. destruct (Hback h ho' Hl) as (ho & Hho & Heq).
    destruct (Hok1 h ho Hho) as (fo & Hfo & Hin).
    destruct (Hfforth _ fo Hfo) as (fo' & Hfo' & Heq').
    exists fo'. rewrite <- Heq, Heq'. done.
  - intros f fo' h Hl Hin. destruct (Hfback f fo' Hl) as (fo & Hfo & Heq).
    rewrite <- Heq in Hin.
    destruct (Hok2 f fo h Hfo Hin) as (ho & Hho & Hf').
    destruct (Hforth h ho Hho) as (ho' & Hho' & Heq').
    exists ho'. split; [done|]. congruence.
Qed.

Lemma links_put_handle (l : list (@handle W)) (h : nat) (ho ho' : handle) :
  l !! h = Some ho → handle_f ho' = handle_f ho →
  handle_f <$> <[h := ho']> l = handle_f <$> l.
Proof.
  intros Hl Hf. rewrite list_fmap_insert. apply list_insert_id.
  by rewrite list_lookup_fmap, Hl, Hf.
Qed.

Lemma links_put_file (l : list (@file)) (f : nat) (fo fo' : file) :
  l !! f = Some fo → file_handles fo' = file_handles fo →
  file_handles <$> <[f := fo']> l = file_handles <$> l.
Proof.
  intros Hl Hf. rewrite list_fmap_insert. apply list_insert_id.
  by rewrite list_lookup_fmap, Hl, Hf.
Qed.

Lemma Flush_links (h : nat) (st : world) :
  handle_f <$> handles (Flush apiClient h st).2 = handle_f <$> handles st ∧
  files (Flush apiClient h st).2 = files st.
Proof.
  unfold Flush. step. destruct (handles st !! h) as [ho|] eqn:Hh; cbn; [|done].
  destruct (handle_w ho) as [w|]; cbn; [|done].
  destruct (writer_Close apiClient w (server st)) as [[e|] s']; cbn;
    (split; [|done]); by apply (links_put_handle _ _ ho).
Qed.

Lemma Fsync_loop_links (hs : list nat) (st : world) :
  handle_f <$> handles (Fsync_loop apiClient hs st).2 = handle_f <$> handles st ∧
  files (Fsync_loop apiClient hs st).2 = files st.
Proof.
  revert st. induction hs as [|h hs IH]; intros st; [done|].
  cbn [Fsync_loop]. unfold mbind, M_bind.
  destruct (Flush_links h st) as [Hh Hf].
  destruct (Flush apiClient h st) as [[[]|e|] st1]; cbn in *; [|done..].
  destruct (IH st1) as [Hh' Hf']. split; congruence.
Qed.

Lemma Write_links (h : nat) (request : WriteRequest) (st : world) :
  handle_f <$> handles (Write apiClient h request st).2 = handle_f <$> handles st ∧
  file_handles <$> files (Write apiClient h request st).2
    = file_handles <$> files st.
Proof.
  unfold Write. step. destruct (handles st !! h) as [ho|] eqn:Hh; cbn; [|done].
  destruct (files st !! handle_f ho) as [fo|] eqn:Hf; cbn; [|done].
  assert (∀ ho', handle_f ho' = handle_f ho →
            handle_f <$> <[h := ho']> (handles st) = handle_f <$> handles st)
    as Hput by (intros ho' Heq; by apply (links_put_handle _ _ ho)).
  assert (∀ ho' ho'', handle_f ho' = handle_f ho → handle_f ho'' = handle_f ho →
            handle_f <$> <[h := ho'']> (<[h := ho']> (handles st))
            = handle_f <$> handles st)
    as Hput2 by (intros ho' ho'' ? ?; rewrite list_insert_insert_eq; by apply Hput).
  assert (∀ fo', file_handles fo' = file_handles fo →
            file_handles <$> <[handle_f ho := fo']> (files st)
            = file_handles <$> files st)
    as Hputf by (intros fo' Heq; by apply (links_put_file _ _ fo)).
  destruct (handle_w ho) as [w|]; cbn.
  - destruct (_ <? 0); cbn; [done|]. destruct (_ <? _); cbn; [done|].
    destruct (writer_Write apiClient w _ (server st)) as [[n [e|]] s']; cbn;
      [done|].
    destruct (file_size fo <? _); cbn; split; auto.
  - destruct (PutFileWriter _ _ _ _ _ _) as [[w' [e|]] s']; cbn; [done|].
    destruct (_ <? 0); cbn; [split; auto|].
    destruct (_ <? _); cbn; [split; auto|].
    destruct w' as [w'|]; cbn; [|split; auto].
    destruct (writer_Write apiClient w' _ s') as [[n [e|]] s'']; cbn;
      [split; auto|].
    destruct (file_size fo <? _); cbn; split; auto.
Qed.

(** Operations that only talk to the service or to the inode table. *)
Ltac unchanged :=
  repeat (step; cbn;
          try done;
          match goal with
          | |- context [match ?x with _ => _ end] =>
              lazymatch x with
              | context [match _ with _ => _ end] => fail
              | _ => destruct x
              end
          end).

Lemma Read_store (h : nat) (r : ReadRequest) (st : world) :
  handles (Read apiClient h r st).2 = handles st ∧
  files (Read apiClient h r st).2 = files st.
Proof. unfold Read. unchanged. Qed.

Lemma Mkdir_store (d : directory) (name : string) (st : world) :
  handles (Mkdir apiClient path_Join d name st).2 = handles st ∧
  files (Mkdir apiClient path_Join d name st).2 = files st.
Proof. unfold Mkdir. unchanged. Qed.

Lemma Remove_store (d : directory) (name : string) (st : world) :
  handles (Remove apiClient filepath_Join d name st).2 = handles st ∧
  files (Remove apiClient filepath_Join d name st).2 = files st.
Proof. unfold Remove. unchanged. Qed.

Lemma ReadDirAll_store (d : directory) (st : world) :
  handles (ReadDirAll apiClient d st).2 = handles st ∧
  files (ReadDirAll apiClient d st).2 = files st.
Proof.
  unfold ReadDirAll, readRepos, readCommits, readFiles. unchanged.
Qed.

Lemma directory_Attr_store (d : directory) (a : Attr) (st : world) :
  handles (directory_Attr d a st).2 = handles st ∧
  files (directory_Attr d a st).2 = files st.
Proof. unfold directory_Attr. unchanged. Qed.

Lemma file_Attr_store (f : nat) (a : Attr) (st : world) :
  handles (file_Attr apiClient f a st).2 = handles st ∧
  files (file_Attr apiClient f a st).2 = files st.
Proof. unfold file_Attr. unchanged. Qed.

Lemma lookUpRepo_store (d : directory) (name : string) (st : world) :
  handles (lookUpRepo apiClient d name st).2 = handles st ∧
  files (lookUpRepo apiClient d name st).2 = files st.
Proof. unfold lookUpRepo. unchanged. Qed.

Lemma lookUpCommit_store (d : directory) (name : string) (st : world) :
  handles (lookUpCommit apiClient d name st).2 = handles st ∧
  files (lookUpCommit apiClient d name st).2 = files st.
Proof. unfold lookUpCommit. unchanged. Qed.

Lemma store_ok_same (st st' : world) :
  handles st' = handles st → files st' = files st →
  store_ok st → store_ok st'.
Proof. intros Hh Hf. apply store_ok_links; congruence. Qed.

Lemma store_ok_new_file (st st' : world) (fo : file) :
  file_handles fo = [] →
  handles st' = handles st → files st' = (files st ++ [fo])%list →
  store_ok st → store_ok st'.
Proof.
  intros Hempty Hh Hf [Hok1 Hok2]. split.
  - intros h ho Hl. rewrite Hh in Hl.
    destruct (Hok1 h ho Hl) as (fo0 & Hfo0 & Hin).
    exists fo0. split; [|done]. rewrite Hf. by apply lookup_app_l_Some.
  - intros f fo' h Hl Hin. rewrite Hf in Hl. rewrite Hh.
    apply lookup_app_Some in Hl as [Hl|[_ Hl]].
    + by apply (Hok2 f fo').
    + destruct (f - length (files st))%nat; [|done].
      injection Hl as <-. rewrite Hempty in Hin. by apply elem_of_nil in Hin.
Qed.

Lemma newHandle_effect (f : nat) (st : world) (fo : file) :
  files st !! f = Some fo →
  newHandle f st
  = (Ok (length (handles st)),
     {| server := server st; trace := trace st; inodes := inodes st;
        files := <[f := {| file_directory := file_directory fo;
                           file_size := file_size fo;
                           file_local := file_local fo;
                           file_handles :=
                             file_handles fo ++ [length (handles st)] |}]>
                   (files st);
        handles := handles st ++
                   [{| handle_f := f; handle_w := None;
                       handle_written := 0 |}] |}).
Proof. intros Hf. unfold newHandle. step. cbn. by rewrite Hf. Qed.

Lemma store_ok_newHandle (f : nat) (st : world) :
  is_Some (files st !! f) → store_ok st → store_ok (newHandle f st).2.
Proof.
  intros [fo Hf] [Hok1 Hok2]. rewrite (newHandle_effect f st fo Hf). cbn.
  pose proof (lookup_lt_Some _ _ _ Hf) as Hlt.
  split; cbn.
  - intros h ho Hl. apply lookup_app_Some in Hl as [Hl|[Hge Hl]].
    + destruct (Hok1 h ho Hl) as (fo0 & Hfo0 & Hin).
      destruct (decide (handle_f ho = f)) as [Heq|Hne].
      * rewrite Heq in *. assert (fo0 = fo) as -> by congruence.
        eexists. split; [by apply list_lookup_insert_eq|]. cbn.
        apply elem_of_app. by left.
      * exists fo0. by rewrite list_lookup_insert_ne.
    + destruct (h - length (handles st))%nat eqn:Hd; [|done].
      injection Hl as <-. cbn.
      eexists. split; [by apply list_lookup_insert_eq|]. cbn.
      apply elem_of_app. right. apply list_elem_of_singleton. lia.
  - intros f' fo' h Hl Hin.
    destruct (decide (f' = f)) as [->|Hne].
    + rewrite list_lookup_insert_eq in Hl by done. injection Hl as <-.
      cbn in Hin. apply elem_of_app in Hin as [Hin|Hin].
      * destruct (Hok2 f fo h Hf Hin) as (ho & Hho & Heq).
        exists ho. split; [|done]. by apply lookup_app_l_Some.
      * apply list_elem_of_singleton in Hin as ->.
        exists {| handle_f := f; handle_w := None; handle_written := 0 |}.
        split; [|done].
        rewrite lookup_app_r by done. by rewrite Nat.sub_diag.
    + rewrite list_lookup_insert_ne in Hl by done.
      destruct (Hok2 f' fo' h Hl Hin) as (ho & Hho & Heq).
      exists ho. split; [|done]. by apply lookup_app_l_Some.
Qed.

Lemma store_ok_lookUpFile (d : directory) (name : string) (st : world) :
  store_ok st → store_ok (lookUpFile apiClient path_Join d name st).2.
Proof.
  intros Hok. unfold lookUpFile. step.
  destruct (Node_Write (directory_Node d)); cbn.
  - eapply store_ok_new_file with (st := st);
      [ | | cbn; reflexivity | exact Hok ]; reflexivity.
  - destruct (InspectFile _ _ _ _ _ _ _) as [[[fileInfo|] [e|]] s']; cbn;
      try by eapply store_ok_same.
    destruct (FileInfo_FileType fileInfo); cbn;
      try by eapply store_ok_same.
    eapply store_ok_new_file with (st := st);
      [ | | cbn; reflexivity | exact Hok ]; reflexivity.
Qed.

Lemma store_ok_Create (d : directory) (name : string) (Flags : Z) (st : world) :
  store_ok st → store_ok (Create path_Join d name Flags st).2.
Proof.
  intros Hok. unfold Create. destruct (String.eqb (dCommitID d) ""); [done|].
  unfold mbind at 1, M_bind at 1. unfold new_file at 1. cbn beta iota zeta.
  unfold mbind at 1, M_bind at 1.
  match goal with |- context [newHandle ?f ?st1] =>
    pose proof (store_ok_newHandle f st1) as Hnew;
    destruct (newHandle f st1) as [[h|e|] st2] end; cbn in *;
    (apply Hnew;
     [ rewrite lookup_app_r by done; by rewrite Nat.sub_diag
     | eapply store_ok_new_file with (st := st);
         [ | | cbn; reflexivity | exact Hok ]; reflexivity ]).
Qed.

Lemma store_ok_serve (r : request) (st : world) :
  valid_request r st → store_ok st →
  store_ok (serve apiClient path_Join filepath_Join r st).
Proof.
  intros Hvalid Hok. destruct r; cbn [serve].
  - by eapply store_ok_same; [apply directory_Attr_store..|].
  - unfold Lookup. destruct (String.eqb (dRepo d) "");
      [by eapply store_ok_same; [apply lookUpRepo_store..|]|].
    destruct (String.eqb (dCommitID d) "");
      [by eapply store_ok_same; [apply lookUpCommit_store..|]|].
    by apply store_ok_lookUpFile.
  - by eapply store_ok_same; [apply ReadDirAll_store..|].
  - by apply store_ok_Create.
  - by eapply store_ok_same; [apply Mkdir_store..|].
  - by eapply store_ok_same; [apply Remove_store..|].
  - by eapply store_ok_same; [apply file_Attr_store..|].
  - unfold Open. unfold mbind, M_bind.
    pose proof (store_ok_newHandle f st Hvalid Hok) as Hnew.
    by destruct (newHandle f st) as [[h|e|] st1].
  - unfold Fsync. step. destruct (files st !! f) as [fo|]; cbn; [|done].
    destruct (Fsync_loop_links (file_handles fo) st) as [Hh Hf].
    eapply store_ok_links; [exact Hh|by rewrite Hf|done].
  - by eapply store_ok_same; [apply Read_store..|].
  - destruct (Write_links h r st) as [Hh Hf].
    by eapply store_ok_links.
  - destruct (Flush_links h st) as [Hh Hf].
    eapply store_ok_links; [exact Hh|by rewrite Hf|done].
  - done.
Qed.

(** X8.  In every state a mount can reach from the empty store, each
    handle points to a file that exists and lists it, and each entry of a
    file's handle list is a handle of that file: what [newHandle] sets up
    is never undone by any operation. *)
Theorem reachable_store_ok (st : world) :
  reachable apiClient path_Join filepath_Join st → store_ok st.
Proof.
  induction 1 as [s|r st _ IH Hvalid].
  - split; intros *; cbn; by rewrite lookup_nil.
  - by apply store_ok_serve.
Qed.

End Store.

(** * Further properties of the directory operations *)

Section Directories.

Context {S W : Type} (apiClient : @APIClient S W).
Variables path_Join filepath_Join : string → string → string.

Abbreviation world := (@world S W).

Ltac step :=
  unfold mbind, M_bind, mret, M_ret, fail, panic, rpc, inode_of,
    get_handle, get_file, put_handle, put_file, new_file, new_handle.

(** ** Resolving a name and resolving it again *)

Lemma scan_Some_elem test l m : scan test l = Some m → m ∈ l ∧ test m = true.
Proof.
  intros (pre & post & -> & Hm & _)%scan_Some. split; [|done].
  apply elem_of_app. right. by left.
Qed.

Lemma published_alias (m : CommitMount) :
  CommitMount_Alias m ≠ "" → published m = CommitMount_Alias m.
Proof.
  intros Hne%String.eqb_neq. unfold published. by rewrite Hne.
Qed.

Lemma published_repo (m : CommitMount) :
  CommitMount_Alias m = "" → published m = repoName m.
Proof. intros Heq. unfold published. by rewrite Heq. Qed.

Lemma getCommitMount_again (f : filesystem) (name : string) (m : CommitMount) :
  getCommitMount f name = Some m →
  name ≠ "" →
  unique_aliases (CommitMounts f) →
  getCommitMount f (published m) = Some m.
Proof.
  unfold getCommitMount. intros Hget Hname Huniq.
  destruct (CommitMounts f) as [|m0 l] eqn:El; cbn [length Nat.eqb] in *.
  - injection Hget as <-. by rewrite published_repo.
  - remember (m0 :: l) as mounts eqn:Hmounts. clear Hmounts.
    destruct (scan (λ cm, String.eqb (CommitMount_Alias cm) name) mounts)
      as [m'|] eqn:Halias.
    + injection Hget as ->.
      apply scan_Some_elem in Halias as Hm. destruct Hm as [_ Hm%String.eqb_eq].
      rewrite published_alias by congruence. rewrite Hm. by rewrite Halias.
    + apply scan_Some_elem in Hget as Hm. destruct Hm as [Hin Hm%String.eqb_eq].
      destruct (decide (CommitMount_Alias m = "")) as [Hempty|Hnonempty].
      * rewrite published_repo by done. unfold repoName.
        rewrite Hm, Halias. exact Hget.
      * rewrite published_alias by done.
        destruct (scan_elem (λ cm, String.eqb (CommitMount_Alias cm)
                                     (CommitMount_Alias m)) mounts m Hin)
          as [m'' Hm'']; [apply String.eqb_refl|].
        rewrite Hm''. f_equal.
        apply scan_Some_elem in Hm'' as [Hin'' Heq%String.eqb_eq].
        apply Huniq; try done. by rewrite Heq.
Qed.

(** X9.  Resolution is stable.  If a non-empty name resolves to a mount,
    and no two mounts share a non-empty alias, then the name the mount is
    published under (its alias if it has one, else its repository name)
    resolves to the same mount; so the mount found by [lookUpRepo] is the
    mount found again by the operations on the directory it made. *)
Theorem getCommitMount_published (f : filesystem) (name : string)
    (m : CommitMount) :
  getCommitMount f name = Some m →
  name ≠ "" →
  unique_aliases (CommitMounts f) →
  getCommitMount f (published m) = Some m ∧
  ∀ commitInfo,
    getRepoOrAliasName (mounted f m commitInfo) = published m ∧
    getFromCommitID f (getRepoOrAliasName (mounted f m commitInfo))
    = match CommitMount_FromCommit m with
      | Some fromCommit => Commit_ID fromCommit
      | None => ""
      end.
Proof.
  intros Hget Hname Huniq.
  pose proof (getCommitMount_again f name m Hget Hname Huniq) as Hagain.
  split; [exact Hagain|]. intros commitInfo.
  assert (getRepoOrAliasName (mounted f m commitInfo) = published m) as Hpub
    by done.
  split; [exact Hpub|]. unfold getFromCommitID. by rewrite Hpub, Hagain.
Qed.

(** X10.  With commit mounts configured, listing the root makes no call
    to the service and gives one directory entry per mount, and every
    name listed resolves to a mount: [Lookup] of a listed name is never
    answered with [EPERM]. *)
Theorem ReadDirAll_root_resolves (f : filesystem) (st : world) :
  CommitMounts f ≠ [] →
  ∃ dirents,
    ReadDirAll apiClient (Root f) st = (Ok dirents, st) ∧
    map Dirent_Name dirents = map published (CommitMounts f) ∧
    ∀ dirent, dirent ∈ dirents →
      Dirent_Type dirent = DT_Dir ∧
      is_Some (getCommitMount f (Dirent_Name dirent)).
Proof.
  intros Hne. unfold ReadDirAll, readRepos. cbn [Root dRepo directory_Node
    Node_File File_Commit Commit_Repo Repo_Name NewCommit directory_fs].
  change (String.eqb "" "") with true. cbn beta iota.
  destruct (CommitMounts f) as [|m0 l] eqn:El; [done|]. cbn [length Nat.eqb].
  remember (m0 :: l) as mounts eqn:Hmounts.
  eexists. split; [reflexivity|]. split.
  { rewrite map_map. apply map_ext. intros m. reflexivity. }
  intros dirent (m & -> & Hin)%list_elem_of_fmap.
  cbn [Dirent_Type Dirent_Name]. split; [done|].
  change (is_Some (getCommitMount f (published m))).
  unfold getCommitMount. rewrite El.
  assert ((length mounts =? 0)%nat = false) as -> by (by rewrite Hmounts).
  destruct (scan (λ cm, String.eqb (CommitMount_Alias cm) (published m)) mounts)
    as [m'|] eqn:Halias; [by eexists|].
  destruct (decide (CommitMount_Alias m = "")) as [Hempty|Hnonempty].
  - rewrite published_repo by done.
    apply (scan_elem _ mounts m Hin). apply String.eqb_refl.
  - rewrite published_alias in Halias by done.
    destruct (scan_elem (λ cm, String.eqb (CommitMount_Alias cm)
                                 (CommitMount_Alias m)) mounts m Hin)
      as [m'' Hm'']; [apply String.eqb_refl|]. congruence.
Qed.

(** ** [Lookup] at the root *)

Lemma Lookup_root_effect (f : filesystem) (name : string) (st : world)
    (m : CommitMount) (repoInfo : RepoInfo) (commitInfo : CommitInfo)
    (s1 s2 : S) :
  getCommitMount f name = Some m →
  InspectRepo apiClient (repoName m) (server st)
    = ((Some repoInfo, None), s1) →
  InspectCommit apiClient (repoName m) (Commit_ID (CommitMount_Commit m)) s1
    = ((Some commitInfo, None), s2) →
  Lookup apiClient path_Join (Root f) name st
  = (Ok (DirNode (mounted f m commitInfo)),
     set_server s2
       (CallInspectCommit (repoName m) (Commit_ID (CommitMount_Commit m)))
       (set_server s1 (CallInspectRepo (repoName m)) st)).
Proof.
  intros Hget Hrepo Hcommit. unfold Lookup, lookUpRepo.
  change (String.eqb (dRepo (Root f)) "") with true. cbn beta iota.
  change (directory_fs (Root f)) with f. rewrite Hget. step.
  fold (repoName m). rewrite Hrepo. cbn. rewrite Hcommit. cbn.
  unfold mounted, with_meta, with_Commit, copy. cbn.
  by destruct (CommitInfo_CommitType commitInfo).
Qed.

(** X11.  [Lookup] of a name at the root that resolves to the mount [m],
    when the service knows the repository and the commit: the service is
    asked about the mount's repository and commit, by the repository's
    own name even when the name looked up is an alias, and the directory
    returned carries the mount's repository, commit id, alias and shard,
    is writable unless the commit's type is [READ], and has the commit's
    finish time. *)
Theorem Lookup_root_mount (f : filesystem) (name : string) (st : world)
    (m : CommitMount) (repoInfo : RepoInfo) (commitInfo : CommitInfo)
    (s1 s2 : S) :
  getCommitMount f name = Some m →
  InspectRepo apiClient (repoName m) (server st)
    = ((Some repoInfo, None), s1) →
  InspectCommit apiClient (repoName m) (Commit_ID (CommitMount_Commit m)) s1
    = ((Some commitInfo, None), s2) →
  ∃ d st',
    Lookup apiClient path_Join (Root f) name st = (Ok (DirNode d), st') ∧
    trace st'
      = (trace st ++
         [CallInspectRepo (repoName m);
          CallInspectCommit (repoName m)
            (Commit_ID (CommitMount_Commit m))])%list ∧
    directory_fs d = f ∧
    dRepo d = repoName m ∧
    dCommitID d = Commit_ID (CommitMount_Commit m) ∧
    dPath d = "" ∧
    Node_RepoAlias (directory_Node d) = CommitMount_Alias m ∧
    Node_Shard (directory_Node d) = CommitMount_Shard m ∧
    (Node_Write (directory_Node d) = false
       ↔ CommitInfo_CommitType commitInfo = COMMIT_TYPE_READ) ∧
    Node_Modified (directory_Node d) = CommitInfo_Finished commitInfo.
Proof.
  intros Hget Hrepo Hcommit.
  rewrite (Lookup_root_effect f name st m repoInfo commitInfo s1 s2)
    by done.
  eexists _, _. split; [reflexivity|]. cbn.
  split; [by rewrite <- app_assoc|].
  repeat (split; [done|]). split; [|done].
  by destruct (CommitInfo_CommitType commitInfo).
Qed.

(** X12.  At the root, when the service knows the repository but
    answers the question about the commit with neither a commit nor an
    error, [Lookup] panics on [commitInfo.CommitType]: [lookUpRepo] has
    no nil check where [lookUpCommit] has one. *)
Theorem Lookup_root_no_commit (f : filesystem) (name : string) (st : world)
    (m : CommitMount) (repoInfo : RepoInfo) (s1 s2 : S) :
  getCommitMount f name = Some m →
  InspectRepo apiClient (repoName m) (server st)
    = ((Some repoInfo, None), s1) →
  InspectCommit apiClient (repoName m) (Commit_ID (CommitMount_Commit m)) s1
    = ((None, None), s2) →
  (Lookup apiClient path_Join (Root f) name st).1 = Panic.
Proof.
  intros Hget Hrepo Hcommit. unfold Lookup, lookUpRepo.
  change (String.eqb (dRepo (Root f)) "") with true. cbn beta iota.
  change (directory_fs (Root f)) with f. rewrite Hget. step.
  fold (repoName m). rewrite Hrepo. cbn. by rewrite Hcommit.
Qed.

(** ** [Lookup] in a repository directory *)

(** X13.  In a repository directory (no commit fixed) the name is
    taken for a commit id and [InspectCommit] is asked once, whatever the
    mount configuration says.  Its error is returned as it is; no commit
    and no error gives [ENOENT]; a commit gives the directory of that
    commit, with the parent's repository, path, alias and shard, writable
    unless the commit's type is [READ] (an unspecified type counts as
    open), with the commit's finish time. *)
Theorem Lookup_commit (d : directory) (name : string) (st : world)
    (commitInfo : option CommitInfo) (err : option error) (s' : S) :
  dRepo d ≠ "" → dCommitID d = "" →
  InspectCommit apiClient (dRepo d) name (server st)
    = ((commitInfo, err), s') →
  (Lookup apiClient path_Join d name st).2
    = set_server s' (CallInspectCommit (dRepo d) name) st ∧
  match err, commitInfo with
  | Some e, _ => (Lookup apiClient path_Join d name st).1 = Err e
  | None, None => (Lookup apiClient path_Join d name st).1 = Err ENOENT
  | None, Some commitInfo =>
      ∃ d',
        (Lookup apiClient path_Join d name st).1 = Ok (DirNode d') ∧
        directory_fs d' = directory_fs d ∧
        dRepo d' = dRepo d ∧ dCommitID d' = name ∧ dPath d' = dPath d ∧
        Node_RepoAlias (directory_Node d') = Node_RepoAlias (directory_Node d) ∧
        Node_Shard (directory_Node d') = Node_Shard (directory_Node d) ∧
        (Node_Write (directory_Node d') = false
           ↔ CommitInfo_CommitType commitInfo = COMMIT_TYPE_READ) ∧
        Node_Modified (directory_Node d') = CommitInfo_Finished commitInfo
  end.
Proof.
  intros Hd%String.eqb_neq Hid Hinspect.
  unfold Lookup, lookUpCommit. rewrite Hd, Hid. cbn. step. rewrite Hinspect.
  destruct err as [e|], commitInfo as [ci|]; cbn; try done.
  split; [done|]. eexists. split; [reflexivity|]. cbn.
  repeat (split; [done|]). split; [|done].
  by destruct (CommitInfo_CommitType ci).
Qed.

(** ** [Lookup] in a directory of a finished commit *)

(** X14.  In a directory that is not writable, with repository and
    commit fixed, [Lookup] asks [InspectFile] once, for the joined path,
    with the from-commit of the mount the directory resolves to.  Any
    error of the service, whatever its kind, is answered with [ENOENT].
    A regular file gives a file node with the size the service reported
    and [local = false]; a directory gives a directory node; in both the
    path is the one in the service's answer.  Any other file type gives
    the error ["Unrecognized FileType."]. *)
Theorem Lookup_finished (d : directory) (name : string) (st : world)
    (fileInfo : option FileInfo) (err : option error) (s' : S) :
  dRepo d ≠ "" → dCommitID d ≠ "" → Node_Write (directory_Node d) = false →
  InspectFile apiClient (dRepo d) (dCommitID d) (path_Join (dPath d) name)
    (getFromCommitID (directory_fs d) (getRepoOrAliasName d))
    (Node_Shard (directory_Node d)) (server st)
    = ((fileInfo, err), s') →
  trace (Lookup apiClient path_Join d name st).2
    = (trace st ++
       [CallInspectFile (dRepo d) (dCommitID d) (path_Join (dPath d) name)
          (getFromCommitID (directory_fs d) (getRepoOrAliasName d))
          (Node_Shard (directory_Node d))])%list ∧
  match err, fileInfo with
  | Some _, _ => (Lookup apiClient path_Join d name st).1 = Err ENOENT
  | None, None => (Lookup apiClient path_Join d name st).1 = Panic
  | None, Some fileInfo =>
      match FileInfo_FileType fileInfo with
      | FILE_TYPE_REGULAR =>
          ∃ f,
            (Lookup apiClient path_Join d name st).1 = Ok (FileNode f) ∧
            files (Lookup apiClient path_Join d name st).2 !! f
            = Some {| file_directory :=
                        with_Path (File_Path (FileInfo_File fileInfo)) (copy d);
                      file_size := int64 (FileInfo_SizeBytes fileInfo);
                      file_local := false;
                      file_handles := [] |}
      | FILE_TYPE_DIR =>
          (Lookup apiClient path_Join d name st).1
          = Ok (DirNode
                  (with_Path (File_Path (FileInfo_File fileInfo)) (copy d)))
      | FILE_TYPE_NONE =>
          (Lookup apiClient path_Join d name st).1
          = Err (Errorf "Unrecognized FileType.")
      end
  end.
Proof.
  intros Hd%String.eqb_neq Hid%String.eqb_neq Hw Hinspect.
  unfold Lookup, lookUpFile. rewrite Hd, Hid, Hw. step. rewrite Hinspect.
  destruct err as [e|], fileInfo as [fi|]; cbn; try done.
  destruct (FileInfo_FileType fi); cbn; try done.
  split; [done|]. eexists. split; [reflexivity|].
  rewrite lookup_app_r by done. by rewrite Nat.sub_diag.
Qed.

(** ** What a lookup below the root hands down *)

(** X15.  Whatever [Lookup] returns in a directory below the root, a
    directory or a file, belongs to the same mount and carries the
    parent's repository, alias and shard; below a commit it also carries
    the parent's commit id and writable flag, and no modification
    time. *)
Theorem Lookup_inherits (d : directory) (name : string) (st st' : world)
    (n : node) :
  dRepo d ≠ "" →
  Lookup apiClient path_Join d name st = (Ok n, st') →
  ∃ d',
    node_directory st' n = Some d' ∧
    directory_fs d' = directory_fs d ∧
    dRepo d' = dRepo d ∧
    Node_RepoAlias (directory_Node d') = Node_RepoAlias (directory_Node d) ∧
    Node_Shard (directory_Node d') = Node_Shard (directory_Node d) ∧
    (dCommitID d ≠ "" →
       dCommitID d' = dCommitID d ∧
       Node_Write (directory_Node d') = Node_Write (directory_Node d) ∧
       Node_Modified (directory_Node d') = None).
Proof.
  intros Hd%String.eqb_neq. unfold Lookup. rewrite Hd.
  destruct (String.eqb_spec (dCommitID d) "") as [Hid|Hid].
  - unfold lookUpCommit. step.
    destruct (InspectCommit _ _ _ _) as [[[ci|] [e|]] s']; cbn; try done.
    intros [= <- <-]. eexists. split; [reflexivity|]. cbn.
    repeat (split; [done|]). done.
  - unfold lookUpFile. step.
    destruct (Node_Write (directory_Node d)) eqn:Hw; cbn.
    + intros [= <- <-]. cbn. rewrite lookup_app_r by done.
      rewrite Nat.sub_diag. cbn. eexists. split; [reflexivity|]. cbn.
      by rewrite Hw.
    + destruct (InspectFile _ _ _ _ _ _ _) as [[[fi|] [e|]] s']; cbn;
        try done.
      destruct (FileInfo_FileType fi); cbn; try done.
      * intros [= <- <-]. cbn. rewrite lookup_app_r by done.
        rewrite Nat.sub_diag. cbn. eexists. split; [reflexivity|]. cbn.
        by rewrite Hw.
      * intros [= <- <-]. cbn. eexists. split; [reflexivity|]. cbn.
        by rewrite Hw.
Qed.

(** ** Listing the directory a root lookup made *)

Lemma Lookup_root_inv (f : filesystem) (name : string) (st st' : world)
    (n : node) :
  Lookup apiClient path_Join (Root f) name st = (Ok n, st') →
  ∃ m commitInfo,
    getCommitMount f name = Some m ∧ n = DirNode (mounted f m commitInfo).
Proof.
  unfold Lookup, lookUpRepo.
  change (String.eqb (dRepo (Root f)) "") with true. cbn beta iota.
  change (directory_fs (Root f)) with f.
  destruct (getCommitMount f name) as [m|]; [|done]. step.
  destruct (InspectRepo _ _ _) as [[[ri|] [e|]] s1]; cbn; try done.
  destruct (InspectCommit _ _ _ _) as [[[ci|] [e|]] s2]; cbn; try done.
  intros [= <- <-]. exists m, ci. split; [done|].
  unfold mounted, with_meta, with_Commit, copy. cbn.
  by destruct (CommitInfo_CommitType ci).
Qed.

(** X16.  For a directory [d] returned by [Lookup] at the root (the name
    looked up not empty, no two mounts sharing a non-empty alias, the
    repository name not empty), [ReadDirAll] lists the commits when [d]
    has no commit id and the files of its commit when it has one, and it
    leaves [d] as it is: the branch that adopts the commit of the mount
    is never taken for such a directory. *)
Theorem ReadDirAll_after_root_Lookup (f : filesystem) (name : string)
    (st st' : world) (d : directory) :
  Lookup apiClient path_Join (Root f) name st = (Ok (DirNode d), st') →
  name ≠ "" →
  unique_aliases (CommitMounts f) →
  dRepo d ≠ "" →
  promoted d = d ∧
  ReadDirAll apiClient d
  = if String.eqb (dCommitID d) ""
    then readCommits apiClient d
    else readFiles apiClient d.
Proof.
  intros Hlookup Hname Huniq Hrepo.
  destruct (Lookup_root_inv f name st st' _ Hlookup)
    as (m & commitInfo & Hget & [= ->]).
  apply String.eqb_neq in Hrepo.
  pose proof (getCommitMount_again f name m Hget Hname Huniq) as Hagain.
  assert (getRepoOrAliasName (mounted f m commitInfo) = published m) as Hpub
    by done.
  unfold promoted, ReadDirAll. rewrite Hpub, Hrepo.
  change (dCommitID (mounted f m commitInfo))
    with (Commit_ID (CommitMount_Commit m)).
  change (directory_fs (mounted f m commitInfo)) with f.
  rewrite Hagain.
  by destruct (String.eqb (Commit_ID (CommitMount_Commit m)) "").
Qed.

(** ** The names [readFiles] publishes *)

Lemma readFiles_loop_names (dirPath : string) (fileInfos : list FileInfo)
    (rests : list string) (result : list Dirent) :
  Forall2 (λ fileInfo rest,
             File_Path (FileInfo_File fileInfo) = dirPath +:+ rest ∧ rest ≠ "")
          fileInfos rests →
  readFiles_loop dirPath fileInfos result
  = Ok (result ++ omap dirent_of (zip fileInfos rests))%list.
Proof.
  intros Hall. revert result.
  induction Hall as [|fi rest fis rests [Hpath Hrest] _ IH]; intros result.
  - cbn. by rewrite app_nil_r.
  - cbn [readFiles_loop zip zip_with]. rewrite Hpath, TrimPrefix_append.
    destruct rest as [|c rest]; [done|].
    cbn [omap list_omap]. unfold dirent_of at 1. cbn [fst snd strip_slash].
    destruct (FileInfo_FileType fi); rewrite IH; [done|..];
      by rewrite <- app_assoc.
Qed.

(** X17.  Listing a directory with repository and commit fixed, when
    every entry the service returns has the directory's path followed by a
    non-empty rest: the listing returns, in the service's order, one
    entry per regular file and per directory, named by the rest with one
    leading ['/'] removed, and leaves out entries of any other type. *)
Theorem ReadDirAll_names (d : directory) (st : world)
    (fileInfos : list FileInfo) (rests : list string) (s' : S) :
  dRepo d ≠ "" → dCommitID d ≠ "" →
  ListFile apiClient (dRepo d) (dCommitID d) (dPath d)
    (getFromCommitID (directory_fs d) (getRepoOrAliasName d))
    (Node_Shard (directory_Node d)) false (server st)
    = ((fileInfos, None), s') →
  Forall2 (λ fileInfo rest,
             File_Path (FileInfo_File fileInfo) = dPath d +:+ rest ∧ rest ≠ "")
          fileInfos rests →
  (ReadDirAll apiClient d st).1
  = Ok (omap dirent_of (zip fileInfos rests)).
Proof.
  intros Hd%String.eqb_neq Hid%String.eqb_neq Hlist Hall.
  unfold ReadDirAll, readFiles. rewrite Hd, Hid. step. rewrite Hlist. cbn.
  by rewrite (readFiles_loop_names _ _ rests).
Qed.

(** ** Attributes of files *)

Lemma Write_directories (h : nat) (request : WriteRequest) (st : world) :
  file_directory <$> files (Write apiClient h request st).2
  = file_directory <$> files st.
Proof.
  unfold Write. step. destruct (handles st !! h) as [ho|] eqn:Hh; cbn; [|done].
  destruct (files st !! handle_f ho) as [fo|] eqn:Hf; cbn; [|done].
  assert (∀ fo', file_directory fo' = file_directory fo →
            file_directory <$> <[handle_f ho := fo']> (files st)
            = file_directory <$> files st)
    as Hputf.
  { intros fo' Heq. rewrite list_fmap_insert. apply list_insert_id.
    by rewrite list_lookup_fmap, Hf, Heq. }
  destruct (handle_w ho) as [w|]; cbn.
  - destruct (_ <? 0); cbn; [done|]. destruct (_ <? _); cbn; [done|].
    destruct (writer_Write apiClient w _ (server st)) as [[n [e|]] s']; cbn;
      [done|].
    destruct (file_size fo <? _); cbn; auto.
  - destruct (PutFileWriter _ _ _ _ _ _) as [[w' [e|]] s']; cbn; [done|].
    destruct (_ <? 0); cbn; [done|].
    destruct (_ <? _); cbn; [done|].
    destruct w' as [w'|]; cbn; [|done].
    destruct (writer_Write apiClient w' _ s') as [[n [e|]] s'']; cbn; [done|].
    destruct (file_size fo <? _); cbn; auto.
Qed.

(** X18.  For a file in a writable directory, [Attr] after a write on
    any handle, however many bytes it forwarded, reports size 0 and mode
    [0666] and makes no call to the service: the size that [Write] keeps
    in the file is not read. *)
Theorem file_Attr_writable (f : nat) (a : Attr) (st : world) (fo : file)
    (h : nat) (request : WriteRequest) :
  files st !! f = Some fo →
  Node_Write (directory_Node (file_directory fo)) = true →
  ∃ a' st',
    file_Attr apiClient f a (Write apiClient h request st).2 = (Ok a', st') ∧
    Attr_Size a' = 0 ∧
    Attr_Mode a' = 438 ∧
    Attr_Inode a'
      = (inode (Node_File (directory_Node (file_directory fo)))
               (inodes (Write apiClient h request st).2)).1 ∧
    trace st' = trace (Write apiClient h request st).2.
Proof.
  intros Hf Hw.
  pose proof (Write_directories h request st) as Hdirs.
  assert (∃ fo1, files (Write apiClient h request st).2 !! f = Some fo1
                 ∧ file_directory fo1 = file_directory fo) as (fo1 & Hf1 & Hd1).
  { assert ((file_directory <$> files (Write apiClient h request st).2) !! f
            = Some (file_directory fo)) as Hl
      by (by rewrite Hdirs, list_lookup_fmap, Hf).
    rewrite list_lookup_fmap in Hl.
    destruct (files (Write apiClient h request st).2 !! f) as [fo1|]; [|done].
    exists fo1. split; [done|]. by inversion Hl. }
  unfold file_Attr. step. rewrite Hf1. cbn. rewrite Hd1, Hw. cbn.
  destruct (inode _ _) as [i t] eqn:Hi. cbn.
  eexists _, _. split; [reflexivity|]. done.
Qed.

(** X19.  For a file in a directory that is not writable, [Attr] asks
    [InspectFile] once.  When the service answers with an error, the
    error is returned unless the file is local (made by [Create]); for a
    local file the error is swallowed.  Whenever [Attr] returns, the mode
    is [0666], and size and modification time are those of the file
    information if the service gave one, else those the record had on
    entry. *)
Theorem file_Attr_finished (f : nat) (a : Attr) (st : world) (fo : file)
    (fileInfo : option FileInfo) (err : option error) (s' : S) :
  files st !! f = Some fo →
  Node_Write (directory_Node (file_directory fo)) = false →
  InspectFile apiClient (dRepo (file_directory fo))
    (dCommitID (file_directory fo)) (dPath (file_directory fo))
    (getFromCommitID (directory_fs (file_directory fo))
       (getRepoOrAliasName (file_directory fo)))
    (Node_Shard (directory_Node (file_directory fo))) (server st)
    = ((fileInfo, err), s') →
  match err, file_local fo with
  | Some e, false => (file_Attr apiClient f a st).1 = Err e
  | _, _ =>
      ∃ a',
        (file_Attr apiClient f a st).1 = Ok a' ∧
        Attr_Mode a' = 438 ∧
        Attr_Size a' = match fileInfo with
                       | Some fileInfo => FileInfo_SizeBytes fileInfo
                       | None => Attr_Size a
                       end ∧
        Attr_Mtime a' = match fileInfo with
                        | Some fileInfo => FileInfo_Modified fileInfo
                        | None => Attr_Mtime a
                        end
  end.
Proof.
  intros Hf Hw Hinspect. unfold file_Attr. step. rewrite Hf. cbn.
  rewrite Hw. cbn. rewrite Hinspect. cbn.
  destruct err as [e|], (file_local fo), fileInfo as [fi|]; cbn; try done;
    destruct (inode _ _) as [i t]; cbn; eexists; (split; [reflexivity|]);
    done.
Qed.

(** ** A created file and where its bytes go *)

(** X20.  [Create] in a directory with a commit id makes no call to the
    service and sets the direct-I/O and non-seekable bits of the response
    flags; the first thing a write on the handle it returns does is to
    ask [PutFileWriter] for a writer on the directory's repository and
    commit, at the joined path, under the mount's handle id. *)
Theorem Create_then_Write (d : directory) (name : string) (Flags : Z)
    (request : WriteRequest) (st : world) :
  dCommitID d ≠ "" →
  ∃ f h Flags' st1 rest,
    Create path_Join d name Flags st = (Ok (f, h, Flags'), st1) ∧
    trace st1 = trace st ∧
    Z.testbit Flags' 0 = true ∧ Z.testbit Flags' 2 = true ∧
    trace (Write apiClient h request st1).2
    = (trace st ++
       CallPutFileWriter (dRepo d) (dCommitID d) (path_Join (dPath d) name)
         (handleID (directory_fs d)) :: rest)%list.
Proof.
  intros Hid. rewrite (Create_pinned path_Join d name Flags st Hid).
  match goal with |- context [(Ok _, ?x)] => set (st1 := x) end.
  destruct (Write_opens apiClient (length (handles st)) request st1
              {| handle_f := length (files st); handle_w := None;
                 handle_written := 0 |}
              {| file_directory :=
                   with_Path (path_Join (dPath (copy d)) name) (copy d);
                 file_size := 0; file_local := true;
                 file_handles := [length (handles st)] |})
    as [rest Hrest].
  - cbn. rewrite lookup_app_r by done. by rewrite Nat.sub_diag.
  - cbn. rewrite lookup_app_r by done. by rewrite Nat.sub_diag.
  - done.
  - eexists _, _, _, st1, rest. split; [reflexivity|]. split; [done|].
    split; [|split].
    + rewrite Z.lor_spec. apply orb_true_r.
    + rewrite Z.lor_spec. apply orb_true_r.
    + exact Hrest.
Qed.

End Directories.

(** * The commit index *)

Section CommitIndex.

(** ** The order of strings *)

Lemma N_of_ascii_inj (c1 c2 : ascii) : N_of_ascii c1 = N_of_ascii c2 → c1 = c2.
Proof.
  intros Heq. rewrite <- (ascii_N_embedding c1), <- (ascii_N_embedding c2).
  by rewrite Heq.
Qed.

#[local] Instance string_le_total : Total string_le.
Proof.
  unfold Total, string_le. intros s1.
  induction s1 as [|c1 s1 IH]; intros [|c2 s2]; cbn [string_leb]; auto.
  destruct (N.ltb_spec (N_of_ascii c1) (N_of_ascii c2)); [by left|].
  destruct (N.ltb_spec (N_of_ascii c2) (N_of_ascii c1)); [by right|].
  assert (N_of_ascii c1 = N_of_ascii c2) as Heq by lia.
  rewrite Heq, N.eqb_refl. apply IH.
Qed.

#[local] Instance string_le_trans : Transitive string_le.
Proof.
  unfold Transitive, string_le. intros s1.
  induction s1 as [|c1 s1 IH]; intros [|c2 s2] [|c3 s3]; cbn [string_leb]; try done.
  destruct (N.ltb_spec (N_of_ascii c1) (N_of_ascii c2)) as [H12|H12];
    destruct (N.ltb_spec (N_of_ascii c2) (N_of_ascii c3)) as [H23|H23];
    destruct (N.ltb_spec (N_of_ascii c1) (N_of_ascii c3)) as [H13|H13];
    try done; try lia;
    destruct (N.eqb_spec (N_of_ascii c1) (N_of_ascii c2)) as [E12|E12];
    destruct (N.eqb_spec (N_of_ascii c2) (N_of_ascii c3)) as [E23|E23];
    destruct (N.eqb_spec (N_of_ascii c1) (N_of_ascii c3)) as [E13|E13];
    try done; try lia.
  apply IH.
Qed.

#[local] Instance string_le_antisymm : AntiSymm (=) string_le.
Proof.
  unfold AntiSymm, string_le. intros s1.
  induction s1 as [|c1 s1 IH]; intros [|c2 s2]; cbn [string_leb]; try done.
  destruct (N.ltb_spec (N_of_ascii c1) (N_of_ascii c2)) as [H12|H12];
    destruct (N.ltb_spec (N_of_ascii c2) (N_of_ascii c1)) as [H21|H21];
    try lia;
    destruct (N.eqb_spec (N_of_ascii c1) (N_of_ascii c2)) as [E12|E12];
    destruct (N.eqb_spec (N_of_ascii c2) (N_of_ascii c1)) as [E21|E21];
    try done; try lia.
  intros H1 H2. f_equal; [by apply N_of_ascii_inj|by apply IH].
Qed.

Lemma merge_Strings_sorts : sorts merge_Strings.
Proof.
  intros l. split; [apply merge_sort_Permutation|apply Sorted_merge_sort, _].
Qed.

(** Sorting is determined by the strings to sort. *)
Lemma sorts_unique (sort_Strings : list string → list string) (l1 l2 : list string) :
  sorts sort_Strings → l1 ≡ₚ l2 → sort_Strings l1 = sort_Strings l2.
Proof.
  intros Hsorts Hperm.
  destruct (Hsorts l1) as [Hp1 Hs1], (Hsorts l2) as [Hp2 Hs2].
  apply (Sorted_unique string_le); [done..|]. by rewrite Hp1, Hp2.
Qed.

(** ** The index *)

Lemma genCommitIndex_loop_long (commits : list Commit) (commitIDs : list string) :
  Forall long commits →
  genCommitIndex_loop commits commitIDs
  = Ok (commitIDs ++ map prefix10 commits)%list.
Proof.
  intros Hall. revert commitIDs.
  induction Hall as [|c cs Hc _ IH]; intros commitIDs;
    cbn [genCommitIndex_loop map].
  - by rewrite app_nil_r.
  - unfold long in Hc.
    destruct (Nat.eqb_spec (String.length (Commit_ID c)) 0); [lia|].
    destruct (Nat.ltb_spec (String.length (Commit_ID c)) 10); [lia|].
    rewrite IH. f_equal. rewrite <- app_assoc. reflexivity.
Qed.

(** X21.  For commits whose ids have ten bytes or more, the index is
    made of the first ten bytes of each id and of nothing else, and does
    not depend on the order of the commits: two lists of commits with the
    same ten-byte prefixes, in any order, get the same index. *)
Theorem genCommitIndex_prefixes (sort_Strings : list string → list string)
    (commits commits' : list Commit) :
  sorts sort_Strings →
  Forall long commits → Forall long commits' →
  map prefix10 commits ≡ₚ map prefix10 commits' →
  genCommitIndex sort_Strings commits = genCommitIndex sort_Strings commits'.
Proof.
  intros Hsorts Hlong Hlong' Hperm. unfold genCommitIndex.
  rewrite !genCommitIndex_loop_long by done. cbn.
  by rewrite (sorts_unique sort_Strings _ _ Hsorts Hperm).
Qed.

Lemma length_substring_10 (s : string) :
  (10 ≤ String.length s)%nat → String.length (String.substring 0 10 s) = 10%nat.
Proof.
  intros Hs. do 10 (destruct s as [|? s]; [cbn in Hs; lia|]).
  cbn. by destruct s.
Qed.

Lemma length_foldl_append (l : list string) (acc : string) :
  String.length (foldl (λ result commitID, result +:+ commitID) acc l)
  = (String.length acc + sum_list (map String.length l))%nat.
Proof.
  revert acc. induction l as [|s l IH]; intros acc; cbn; [lia|].
  rewrite IH, length_append. lia.
Qed.

(** X22.  For commits whose ids have ten bytes or more, [genCommitIndex]
    returns an index of ten bytes per commit. *)
Theorem genCommitIndex_length (sort_Strings : list string → list string)
    (commits : list Commit) :
  sorts sort_Strings →
  Forall long commits →
  ∃ index,
    genCommitIndex sort_Strings commits = Ok index ∧
    String.length index = (10 * length commits)%nat.
Proof.
  intros Hsorts Hlong. unfold genCommitIndex.
  rewrite genCommitIndex_loop_long by done. cbn.
  eexists. split; [reflexivity|].
  rewrite length_foldl_append. cbn.
  destruct (Hsorts (map prefix10 commits)) as [Hperm _].
  rewrite Hperm. clear Hperm.
  induction Hlong as [|c cs Hc _ IH]; cbn; [done|].
  unfold prefix10 at 1. rewrite length_substring_10 by done. lia.
Qed.

(** X23.  [genCommitIndex] stops at the first commit whose id has fewer
    than ten bytes: with an empty id it returns the error that names the
    commit, and with an id of one to nine bytes it panics on
    [commit.ID[0:10]]. *)
Theorem genCommitIndex_short (sort_Strings : list string → list string)
    (before after : list Commit) (commit : Commit) :
  Forall long before →
  (String.length (Commit_ID commit) < 10)%nat →
  genCommitIndex sort_Strings (before ++ commit :: after)
  = if (String.length (Commit_ID commit) =? 0)%nat
    then Err (Errorf ("can't generate index for commit " +:+ quote +:+
                      Repo_Name (Commit_Repo commit) +:+ "/" +:+
                      Commit_ID commit +:+ quote))
    else Panic.
Proof.
  intros Hlong Hshort. unfold genCommitIndex.
  assert (∀ acc,
            genCommitIndex_loop (before ++ commit :: after) acc
            = genCommitIndex_loop (commit :: after)
                (acc ++ map prefix10 before)) as Hloop.
  { induction Hlong as [|c cs Hc _ IH]; intros acc.
    - cbn [app map]. by rewrite app_nil_r.
    - cbn [app genCommitIndex_loop map]. unfold long in Hc.
      destruct (Nat.eqb_spec (String.length (Commit_ID c)) 0); [lia|].
      destruct (Nat.ltb_spec (String.length (Commit_ID c)) 10); [lia|].
      rewrite IH. f_equal. rewrite <- app_assoc. reflexivity. }
  rewrite Hloop. cbn [genCommitIndex_loop].
  destruct (String.length (Commit_ID commit) =? 0)%nat; [done|].
  by destruct (Nat.ltb_spec (String.length (Commit_ID commit)) 10); [|lia].
Qed.

End CommitIndex.

(** ** The further properties on the in-memory service *)

Module MoreRuns.
Import InMemory Scenes.

Ltac run :=
  first [ reflexivity
        | discriminate
        | lia
        | (vm_compute; first [ reflexivity | discriminate
                             | (split; discriminate) ]) ].

Lemma Flush_detaches_witness :
  ∃ st',
    Flush api 0 streaming = (Ok (), st') ∧
    trace st' = (trace streaming ++ [CallClose 0%nat])%list ∧
    server st' = server streaming ∧
    handles st' !! 0%nat = Some (detached (log_handle (Some 0%nat) 5)) ∧
    (∀ h', h' ≠ 0%nat → handles st' !! h' = handles streaming !! h') ∧
    files st' = files streaming.
Proof.
  apply (Flush_detaches api 0 streaming (log_handle (Some 0%nat) 5) 0%nat
           None (server streaming)); reflexivity.
Defined.

Lemma Flush_again_witness :
  Flush api 0 (Flush api 0 streaming).2 = (Ok (), (Flush api 0 streaming).2).
Proof.
  apply (Flush_again api 0 streaming (log_handle (Some 0%nat) 5)).
  reflexivity.
Defined.

Lemma Write_accounting_witness :
  ∃ st',
    Write api 0 (at_offset 0 (hello ++ world_)) streaming = (Ok 10, st') ∧
    handles st' !! 0%nat = Some (log_handle (Some 0%nat) 10) ∧
    files st' !! 0%nat = Some (log_file 5 [0%nat]) ∧
    streamed (trace st') = (streamed (trace streaming) ++ world_)%list.
Proof.
  apply (Write_accounting api 0 (at_offset 0 (hello ++ world_)) streaming
           (log_handle (Some 0%nat) 5) (log_file 5 [0%nat]) 0%nat []
           [hello] [(hello ++ world_)%list]); run.
Defined.

Lemma Writes_stream_witness :
  ∃ st',
    Writes api 0 0 [hello; world_] (opened 0) = (Ok [5; 5], st') ∧
    trace st' = [CallPutFileWriter "R" "c9" "log" "7b0a2c";
                 CallWrite 0%nat hello; CallWrite 0%nat world_] ∧
    streamed (trace st') = (hello ++ world_)%list ∧
    handles st' !! 0%nat = Some (log_handle (Some 0%nat) 10).
Proof.
  apply (Writes_stream api 0 hello [world_] (opened 0)
           (log_handle None 0) (log_file 0 [0%nat]) 0%nat
           [CallPutFileWriter "R" "c9" "log" "7b0a2c"] [[]]);
    first [ run | (intros data s; eexists; reflexivity) ].
Defined.

Lemma Write_after_Flush_witness :
  ∃ st',
    Write api 0 (at_offset 5 world_) (Flush api 0 streaming).2
      = (Ok 5, st') ∧
    trace st'
      = (trace streaming ++
         [CallClose 0%nat; CallPutFileWriter "R" "c9" "log" "7b0a2c";
          CallWrite 1%nat world_])%list ∧
    handles st' !! 0%nat = Some (log_handle (Some 1%nat) 10).
Proof.
  apply (Write_after_Flush api 0 (at_offset 5 world_) streaming
           (log_handle (Some 0%nat) 5) (log_file 5 [0%nat]) 0%nat 1%nat None
           [hello] [hello; []] [hello; world_]); run.
Defined.

Lemma Fsync_closes_all_witness :
  ∃ st',
    Fsync api 0 two_handles = (Ok (), st') ∧
    files st' = files two_handles ∧
    streamed (trace st') = streamed (trace two_handles) ∧
    (∀ h ho, handles two_handles !! h = Some ho →
       ∃ ho',
         handles st' !! h = Some ho' ∧
         handle_f ho' = handle_f ho ∧
         handle_written ho' = handle_written ho ∧
         (h ∈ [0%nat; 1%nat] → handle_w ho' = None) ∧
         (h ∉ [0%nat; 1%nat] → ho' = ho)).
Proof.
  apply (Fsync_closes_all api 0 two_handles (log_file 5 [0%nat; 1%nat])).
  - intros w s. reflexivity.
  - reflexivity.
  - intros h [->|[->|Hin%elem_of_nil]%elem_of_cons]%elem_of_cons;
      [by eexists..|done].
Defined.


Lemma reachable_store_ok_witness :
  store_ok (serve api join join (ReqWrite 0 (at_offset 0 hello))
              (serve api join join (ReqCreate (open "") "log" 0)
                 (empty_store []))).
Proof.
  apply (reachable_store_ok api join join).
  apply reachable_serve; [|exact I].
  apply reachable_serve; [|exact I].
  apply reachable_empty.
Defined.

Lemma aliased_unique : unique_aliases (CommitMounts aliased).
Proof.
  intros m1 m2 H1 H2 Heq Hne.
  apply elem_of_cons in H1 as [->|[->|H1%elem_of_nil]%elem_of_cons];
    apply elem_of_cons in H2 as [->|[->|H2%elem_of_nil]%elem_of_cons];
    done.
Defined.

Lemma getCommitMount_published_witness :
  getCommitMount aliased (published (mount "R" "c2" "out"))
    = Some (mount "R" "c2" "out") ∧
  ∀ commitInfo,
    getRepoOrAliasName (mounted aliased (mount "R" "c2" "out") commitInfo)
      = published (mount "R" "c2" "out") ∧
    getFromCommitID aliased
      (getRepoOrAliasName (mounted aliased (mount "R" "c2" "out") commitInfo))
    = "".
Proof.
  apply (getCommitMount_published aliased "out" (mount "R" "c2" "out"));
    [reflexivity|discriminate|exact aliased_unique].
Defined.

Lemma ReadDirAll_root_resolves_witness :
  ∃ dirents,
    ReadDirAll api (Root aliased) boot = (Ok dirents, boot) ∧
    map Dirent_Name dirents = map published (CommitMounts aliased) ∧
    ∀ dirent, dirent ∈ dirents →
      Dirent_Type dirent = DT_Dir ∧
      is_Some (getCommitMount aliased (Dirent_Name dirent)).
Proof.
  apply (ReadDirAll_root_resolves api aliased boot). discriminate.
Defined.

Lemma Lookup_root_mount_witness :
  ∃ d st',
    Lookup api join (Root aliased) "out" boot = (Ok (DirNode d), st') ∧
    trace st'
      = (trace boot ++
         [CallInspectRepo "R"; CallInspectCommit "R" "c2"])%list ∧
    directory_fs d = aliased ∧
    dRepo d = "R" ∧
    dCommitID d = "c2" ∧
    dPath d = "" ∧
    Node_RepoAlias (directory_Node d) = "out" ∧
    Node_Shard (directory_Node d) = None ∧
    (Node_Write (directory_Node d) = false
       ↔ CommitInfo_CommitType commit_out = COMMIT_TYPE_READ) ∧
    Node_Modified (directory_Node d) = None.
Proof.
  apply (Lookup_root_mount api join aliased "out" boot (mount "R" "c2" "out")
           {| RepoInfo_Repo := {| Repo_Name := "R" |} |} commit_out [] []);
    reflexivity.
Defined.

Lemma Lookup_root_no_commit_witness :
  (Lookup Faulty.api join (Root aliased) "out" boot).1 = Panic.
Proof.
  apply (Lookup_root_no_commit Faulty.api join aliased "out" boot
           (mount "R" "c2" "out")
           {| RepoInfo_Repo := {| Repo_Name := "R" |} |} [] []);
    reflexivity.
Defined.

Lemma Lookup_commit_witness :
  (Lookup api join (dir (mounting []) "R" "" "" false) "c1" boot).2
    = set_server [] (CallInspectCommit "R" "c1") boot ∧
  ∃ d',
    (Lookup api join (dir (mounting []) "R" "" "" false) "c1" boot).1
      = Ok (DirNode d') ∧
    directory_fs d' = mounting [] ∧
    dRepo d' = "R" ∧ dCommitID d' = "c1" ∧ dPath d' = "" ∧
    Node_RepoAlias (directory_Node d') = "" ∧
    Node_Shard (directory_Node d') = None ∧
    (Node_Write (directory_Node d') = false
       ↔ CommitInfo_CommitType commit_c1 = COMMIT_TYPE_READ) ∧
    Node_Modified (directory_Node d') = None.
Proof.
  apply (Lookup_commit api join (dir (mounting []) "R" "" "" false) "c1" boot
           (Some commit_c1) None []); run.
Defined.

Lemma Lookup_finished_witness :
  trace (Lookup api join (finished "") "a" boot).2
    = (trace boot ++ [CallInspectFile "R" "c1" "a" "" None])%list ∧
  (Lookup api join (finished "") "a" boot).1 = Err ENOENT.
Proof.
  apply (Lookup_finished api join (finished "") "a" boot None
           (Some (RpcError codes_NotFound "file not found")) []); run.
Defined.

Lemma Lookup_inherits_witness :
  ∃ d',
    node_directory (Lookup api join (open "") "x" boot).2 (FileNode 0)
      = Some d' ∧
    directory_fs d' = directory_fs (open "") ∧
    dRepo d' = dRepo (open "") ∧
    Node_RepoAlias (directory_Node d')
      = Node_RepoAlias (directory_Node (open "")) ∧
    Node_Shard (directory_Node d') = Node_Shard (directory_Node (open "")) ∧
    (dCommitID (open "") ≠ "" →
       dCommitID d' = dCommitID (open "") ∧
       Node_Write (directory_Node d') = Node_Write (directory_Node (open "")) ∧
       Node_Modified (directory_Node d') = None).
Proof.
  apply (Lookup_inherits api join (open "") "x" boot
           (Lookup api join (open "") "x" boot).2 (FileNode 0)); run.
Defined.

Lemma ReadDirAll_after_root_Lookup_witness :
  promoted (mounted aliased (mount "R" "c2" "out") commit_out)
    = mounted aliased (mount "R" "c2" "out") commit_out ∧
  ReadDirAll api (mounted aliased (mount "R" "c2" "out") commit_out)
  = if String.eqb
         (dCommitID (mounted aliased (mount "R" "c2" "out") commit_out)) ""
    then readCommits api (mounted aliased (mount "R" "c2" "out") commit_out)
    else readFiles api (mounted aliased (mount "R" "c2" "out") commit_out).
Proof.
  apply (ReadDirAll_after_root_Lookup api join aliased "out" boot
           (Lookup api join (Root aliased) "out" boot).2
           (mounted aliased (mount "R" "c2" "out") commit_out));
    [reflexivity|discriminate|exact aliased_unique|discriminate].
Defined.

Lemma ReadDirAll_names_witness :
  (ReadDirAll api (finished "d") boot).1
  = Ok (omap dirent_of
          (zip [entry "d/a" FILE_TYPE_REGULAR; entry "d/sub" FILE_TYPE_DIR]
               ["/a"; "/sub"])).
Proof.
  apply (ReadDirAll_names api (finished "d") boot
           [entry "d/a" FILE_TYPE_REGULAR; entry "d/sub" FILE_TYPE_DIR]
           ["/a"; "/sub"] []); try run.
  repeat constructor; run.
Defined.

Lemma file_Attr_writable_witness :
  ∃ a' st',
    file_Attr api 0 blank (Write api 0 (at_offset 0 hello) (opened 0)).2
      = (Ok a', st') ∧
    Attr_Size a' = 0 ∧
    Attr_Mode a' = 438 ∧
    Attr_Inode a'
      = (inode (fileOf "R" "c9" "log")
               (inodes (Write api 0 (at_offset 0 hello) (opened 0)).2)).1 ∧
    trace st' = trace (Write api 0 (at_offset 0 hello) (opened 0)).2.
Proof.
  apply (file_Attr_writable api 0 blank (opened 0) (log_file 0 [0%nat]) 0
           (at_offset 0 hello)); reflexivity.
Defined.

Lemma file_Attr_finished_witness :
  (file_Attr api 0 blank reading).1
  = Err (RpcError codes_NotFound "file not found").
Proof.
  apply (file_Attr_finished api 0 blank reading
           {| file_directory := finished "a"; file_size := 0;
              file_local := false; file_handles := [0%nat] |}
           None (Some (RpcError codes_NotFound "file not found")) []);
    reflexivity.
Defined.

Lemma Create_then_Write_witness :
  ∃ f h Flags' st1 rest,
    Create join (open "") "log" 0 boot = (Ok (f, h, Flags'), st1) ∧
    trace st1 = trace boot ∧
    Z.testbit Flags' 0 = true ∧ Z.testbit Flags' 2 = true ∧
    trace (Write api h (at_offset 0 hello) st1).2
    = (trace boot ++
       CallPutFileWriter "R" "c9" "log" "7b0a2c" :: rest)%list.
Proof.
  apply (Create_then_Write api join (open "") "log" 0 (at_offset 0 hello) boot).
  discriminate.
Defined.

Lemma genCommitIndex_prefixes_witness :
  genCommitIndex merge_Strings commits_ab
  = genCommitIndex merge_Strings commits_ba.
Proof.
  apply (genCommitIndex_prefixes merge_Strings commits_ab commits_ba).
  - exact merge_Strings_sorts.
  - repeat constructor; unfold long; cbn; lia.
  - repeat constructor; unfold long; cbn; lia.
  - apply perm_swap.
Defined.

Lemma genCommitIndex_length_witness :
  ∃ index,
    genCommitIndex merge_Strings commits_ab = Ok index ∧
    String.length index = (10 * length commits_ab)%nat.
Proof.
  apply (genCommitIndex_length merge_Strings commits_ab).
  - exact merge_Strings_sorts.
  - repeat constructor; unfold long; cbn; lia.
Defined.

Lemma genCommitIndex_short_witness :
  genCommitIndex merge_Strings
    (commits_ab ++ NewCommit "T" "c0ffee" :: commits_ba)
  = Panic.
Proof.
  apply (genCommitIndex_short merge_Strings commits_ab commits_ba
           (NewCommit "T" "c0ffee")).
  - repeat constructor; unfold long; cbn; lia.
  - cbn. lia.
Defined.

Example genCommitIndex_empty_id :
  genCommitIndex merge_Strings (commits_ab ++ [NewCommit "T" ""])
  = Err (Errorf ("can't generate index for commit " +:+ quote +:+ "T/"
                 +:+ quote)).
Proof. reflexivity. Qed.

Example genCommitIndex_two :
  genCommitIndex merge_Strings commits_ab = Ok "591785b794b1946ac924".
Proof. reflexivity. Qed.

End MoreRuns.
